(** * Oriel Cornerstone 260 monochromator driver

    A shallow embedding of the [Monochromator] class of
    [oriel_cornerstone_260/monochromator.ipynb], and the properties of its
    framing ([write]/[read]), of its two primitives ([command]/[query]) and
    of the typed operations built on them.

    Layout: Python strings and the UTF-8 codec, the exceptions, the
    transport interface the driver calls ([self._com]), a model of
    pyserial's [serial.Serial], the driver itself, and then the theorems. *)

From Stdlib Require Import List NArith ZArith Bool String Ascii Lia.
From Stdlib Require Import Strings.Byte DecimalString.
Import ListNotations.

Set Implicit Arguments.
Local Open Scope N_scope.

(** ** Python [str] and [bytes] *)

(** A [str] is a sequence of Unicode code points, a [bytes] a sequence of
    octets. *)
Definition codepoint := N.
Definition str := list codepoint.
Definition bytes := list byte.

(** A string literal of the source, all of which are ASCII. *)
Definition lit (s : string) : str :=
  List.map N_of_ascii (list_ascii_of_string s).

Definition byte_of_N (n : N) : byte :=
  match Byte.of_N n with
  | Some b => b
  | None => x00
  end.

Definition str_eqb (a b : str) : bool :=
  if list_eq_dec N.eq_dec a b then true else false.

Definition bytes_eqb (a b : bytes) : bool :=
  if list_eq_dec Byte.byte_eq_dec a b then true else false.

(** *** [str.upper]

    CPython maps every code point on its own ([_PyUnicode_ToUpperFull]; one
    code point may become up to three).  The ASCII part is written out; the
    table for the other code points is a parameter of the development. *)
Definition ascii_upper (c : codepoint) : codepoint :=
  if (0x61 <=? c) && (c <=? 0x7A) then c - 0x20 else c.

Definition upper_with (table : codepoint -> list codepoint) (s : str) : str :=
  flat_map (fun c => if c <? 0x80 then [ascii_upper c] else table c) s.

(** *** [str.rstrip()]

    Without argument, [rstrip] removes the trailing code points for which
    [str.isspace] holds ([_PyUnicode_IsWhitespace]). *)
Definition is_space (c : codepoint) : bool :=
  ((0x09 <=? c) && (c <=? 0x0D)) || ((0x1C <=? c) && (c <=? 0x20))
  || (c =? 0x85) || (c =? 0xA0) || (c =? 0x1680)
  || ((0x2000 <=? c) && (c <=? 0x200A))
  || (c =? 0x2028) || (c =? 0x2029) || (c =? 0x202F) || (c =? 0x205F)
  || (c =? 0x3000).

Fixpoint rstrip (s : str) : str :=
  match s with
  | [] => []
  | c :: t =>
      match rstrip t with
      | [] => if is_space c then [] else [c]
      | t' => c :: t'
      end
  end.

(** *** [sep.join(parts)] *)
Fixpoint join (sep : str) (parts : list str) : str :=
  match parts with
  | [] => []
  | [p] => p
  | p :: rest => p ++ sep ++ join sep rest
  end.

(** *** [s.split(sep)] for a non-empty separator: the pieces between the
    occurrences of [sep], scanned from the left without overlap. *)
Fixpoint starts_with (p s : str) : bool :=
  match p, s with
  | [], _ => true
  | _ :: _, [] => false
  | a :: p', b :: s' => (a =? b) && starts_with p' s'
  end.

Fixpoint split_go (sep : str) (skip : nat) (cur : str) (s : str) : list str :=
  match s with
  | [] => [rev cur]
  | c :: s' =>
      match skip with
      | S k => split_go sep k cur s'
      | O =>
          if starts_with sep s
          then rev cur :: split_go sep (List.length sep - 1) [] s'
          else split_go sep 0 (c :: cur) s'
      end
  end.

(** *** The UTF-8 codec ([encoding = 'utf-8'], error handler [strict]) *)

(** [None] is Python's [UnicodeEncodeError]: surrogates cannot be encoded. *)
Definition utf8_encode_cp (c : codepoint) : option bytes :=
  if c <? 0x80 then Some [byte_of_N c]
  else if c <? 0x800 then
    Some [byte_of_N (N.lor 0xC0 (N.shiftr c 6));
          byte_of_N (N.lor 0x80 (N.land c 0x3F))]
  else if c <? 0x10000 then
    if (0xD800 <=? c) && (c <? 0xE000) then None
    else
      Some [byte_of_N (N.lor 0xE0 (N.shiftr c 12));
            byte_of_N (N.lor 0x80 (N.land (N.shiftr c 6) 0x3F));
            byte_of_N (N.lor 0x80 (N.land c 0x3F))]
  else if c <? 0x110000 then
    Some [byte_of_N (N.lor 0xF0 (N.shiftr c 18));
          byte_of_N (N.lor 0x80 (N.land (N.shiftr c 12) 0x3F));
          byte_of_N (N.lor 0x80 (N.land (N.shiftr c 6) 0x3F));
          byte_of_N (N.lor 0x80 (N.land c 0x3F))]
  else None.

Fixpoint utf8_encode (s : str) : option bytes :=
  match s with
  | [] => Some []
  | c :: t =>
      match utf8_encode_cp c, utf8_encode t with
      | Some b, Some bs => Some (b ++ bs)
      | _, _ => None
      end
  end.

Definition is_cont (b : byte) : bool :=
  let n := Byte.to_N b in (0x80 <=? n) && (n <? 0xC0).

Definition cont_bits (b : byte) : N := N.land (Byte.to_N b) 0x3F.

(** [None] is Python's [UnicodeDecodeError]: a stray continuation byte, a
    truncated or overlong sequence, a surrogate, or a value above
    U+10FFFF. *)
Fixpoint utf8_decode (bs : bytes) : option str :=
  match bs with
  | [] => Some []
  | b0 :: r0 =>
      let n0 := Byte.to_N b0 in
      if n0 <? 0x80 then option_map (cons n0) (utf8_decode r0)
      else if n0 <? 0xC2 then None
      else if n0 <? 0xE0 then
        match r0 with
        | b1 :: r1 =>
            if is_cont b1
            then option_map
                   (cons (N.lor (N.shiftl (N.land n0 0x1F) 6) (cont_bits b1)))
                   (utf8_decode r1)
            else None
        | _ => None
        end
      else if n0 <? 0xF0 then
        match r0 with
        | b1 :: b2 :: r2 =>
            let n1 := Byte.to_N b1 in
            if is_cont b1 && is_cont b2
               && negb ((n0 =? 0xE0) && (n1 <? 0xA0))
               && negb ((n0 =? 0xED) && (0xA0 <=? n1))
            then option_map
                   (cons (N.lor (N.shiftl (N.land n0 0x0F) 12)
                            (N.lor (N.shiftl (cont_bits b1) 6) (cont_bits b2))))
                   (utf8_decode r2)
            else None
        | _ => None
        end
      else if n0 <? 0xF5 then
        match r0 with
        | b1 :: b2 :: b3 :: r3 =>
            let n1 := Byte.to_N b1 in
            if is_cont b1 && is_cont b2 && is_cont b3
               && negb ((n0 =? 0xF0) && (n1 <? 0x90))
               && negb ((n0 =? 0xF4) && (0x90 <=? n1))
            then option_map
                   (cons (N.lor (N.shiftl (N.land n0 0x07) 18)
                            (N.lor (N.shiftl (cont_bits b1) 12)
                               (N.lor (N.shiftl (cont_bits b2) 6)
                                  (cont_bits b3)))))
                   (utf8_decode r3)
            else None
        | _ => None
        end
      else None
  end.

(** ** Exceptions *)

(** The exception classes that the driver, the codec and pyserial can
    raise here.  [PortNotOpenError] is pyserial's subclass of
    [SerialException]. *)
Inductive exn : Type :=
| IndexError
| AttributeError
| TypeError
| ValueError
| UnicodeEncodeError
| UnicodeDecodeError
| SerialException
| PortNotOpenError.

Definition exn_name (e : exn) : string :=
  match e with
  | IndexError => "IndexError"
  | AttributeError => "AttributeError"
  | TypeError => "TypeError"
  | ValueError => "ValueError"
  | UnicodeEncodeError => "UnicodeEncodeError"
  | UnicodeDecodeError => "UnicodeDecodeError"
  | SerialException => "SerialException"
  | PortNotOpenError => "PortNotOpenError"
  end.

Definition result (A : Type) : Type := (exn + A)%type.

Definition or_raise {A} (e : exn) (o : option A) : result A :=
  match o with
  | Some a => inr a
  | None => inl e
  end.

Definition encode (s : str) : result bytes :=
  or_raise UnicodeEncodeError (utf8_encode s).

Definition decode (bs : bytes) : result str :=
  or_raise UnicodeDecodeError (utf8_decode bs).

(** [s[-1]]: the last character, as a string of length one. *)
Definition last_char (s : str) : result str :=
  match rev s with
  | [] => inl IndexError
  | c :: _ => inr [c]
  end.

(** [l[i]] for a list and a non-negative index. *)
Definition getitem {A} (l : list A) (i : nat) : result A :=
  or_raise IndexError (nth_error l i).

(** ** Python builtins that stay abstract

    Numbers and their formatting, [str()] of an arbitrary object, [float()],
    [int()] and the upper-case table of the non-ASCII code points are not
    written out; every theorem holds for any choice of them. *)
Class Runtime : Type := {
  pynum : Type;                                  (* int and float values *)
  object : Type;                                 (* any other object *)
  num_of_Z : Z -> pynum;                         (* an int literal *)
  unicode_upper : codepoint -> list codepoint;   (* non-ASCII upper case *)
  object_str : object -> str;                    (* str(o) *)
  format_3f : pynum -> str;                      (* '{:.3f}'.format(x) *)
  py_float : str -> option pynum;                (* float(s), None: ValueError *)
  py_int : str -> option Z                       (* int(s), None: ValueError *)
}.

Definition upper `{Runtime} (s : str) : str := upper_with unicode_upper s.

(** An argument of [command]: a string, or an object known through [str()]. *)
Inductive pyarg `{Runtime} : Type :=
| ArgStr (s : str)
| ArgObj (o : object).

Definition py_str `{Runtime} (a : pyarg) : str :=
  match a with
  | ArgStr s => s
  | ArgObj o => object_str o
  end.

(** ** The transport: what the driver calls on [self._com] *)
Class Transport (T : Type) : Type := {
  com_open : T -> result unit * T;
  com_close : T -> result unit * T;
  com_write : bytes -> T -> result N * T;
  com_read_until : bytes -> T -> result bytes * T
}.

(** Every method call the driver makes on the transport is recorded. *)
Inductive call : Type :=
| CallOpen
| CallClose
| CallWrite (data : bytes)
| CallReadUntil (expected : bytes).

Record world (T : Type) : Type := World { com : T; calls : list call }.

(** ** The monad of the driver: state, and an exception or a value *)
Definition M (T A : Type) : Type := world T -> result A * world T.

Definition ret {T A} (a : A) : M T A := fun w => (inr a, w).

Definition raise {T A} (e : exn) : M T A := fun w => (inl e, w).

Definition bind {T A B} (m : M T A) (k : A -> M T B) : M T B :=
  fun w =>
    match m w with
    | (inr a, w') => k a w'
    | (inl e, w') => (inl e, w')
    end.

Definition lift {T A} (r : result A) : M T A := fun w => (r, w).

Definition invoke {T A} (c : call) (f : T -> result A * T) : M T A :=
  fun w =>
    let (r, t) := f (com w) in
    (r, {| com := t; calls := calls w ++ [c] |}).

Notation "x <- c ;; k" := (bind c (fun x => k))
  (at level 61, c at next level, right associativity).

(** ** pyserial's [serial.Serial]

    The four methods the driver calls, after pyserial 3.5.  [rx] lists what
    the successive [read(1)] calls inside [read_until] will meet: a byte that
    arrives before the deadline, the deadline passing with no byte, or an
    operating-system error.  An exhausted [rx] means that nothing more
    arrives.  [tx] is what has been put on the wire.  The timeout is finite
    (with [timeout=None] pyserial would block instead). *)
Inductive rx_event : Type :=
| RxByte (b : byte)
| RxTimeout
| RxError.

Record Serial `{Runtime} : Type := mkSerial {
  port : str;
  timeout : pynum;
  is_open : bool;
  present : bool;          (* the operating system can open the device *)
  rx : list rx_event;
  tx : bytes
}.

(** [line[-lenterm:]], the slice that [read_until] compares. *)
Definition tail_slice (n : nat) (line : bytes) : bytes :=
  match n with
  | O => line
  | _ => skipn (List.length line - n) line
  end.

(** The loop of [read_until]: [c = self.read(1)]; a byte is appended and the
    loop ends when the line ends with [expected]; an empty [c] ends it. *)
Fixpoint read_until_loop (expected line : bytes) (input : list rx_event)
  : result bytes * list rx_event :=
  match input with
  | [] => (inr line, [])
  | RxTimeout :: rest => (inr line, rest)
  | RxError :: rest => (inl SerialException, rest)
  | RxByte b :: rest =>
      let line' := line ++ [b] in
      if bytes_eqb (tail_slice (List.length expected) line') expected
      then (inr line', rest)
      else read_until_loop expected line' rest
  end.

(** The input that is waiting in a port: the bytes up to the next passed
    deadline or error.  [open()] resets the input buffer, which discards
    them. *)
Fixpoint drop_waiting (input : list rx_event) : list rx_event :=
  match input with
  | RxByte _ :: rest => drop_waiting rest
  | _ => input
  end.

Section PySerial.
Context `{Runtime}.

Definition set_open (b : bool) (s : Serial) : Serial :=
  {| port := port s; timeout := timeout s; is_open := b;
     present := present s; rx := rx s; tx := tx s |}.

Definition set_rx (input : list rx_event) (s : Serial) : Serial :=
  {| port := port s; timeout := timeout s; is_open := is_open s;
     present := present s; rx := input; tx := tx s |}.

Definition set_tx (sent : bytes) (s : Serial) : Serial :=
  {| port := port s; timeout := timeout s; is_open := is_open s;
     present := present s; rx := rx s; tx := sent |}.

(** [open()]: an open port raises ("Port is already open."), and so does
    a device that the operating system cannot open.  A port that opens
    starts with its input buffer reset: what was waiting is gone. *)
Definition Serial_open (s : Serial) : result unit * Serial :=
  if is_open s then (inl SerialException, s)
  else if present s
       then (inr tt, set_open true (set_rx (drop_waiting (rx s)) s))
       else (inl SerialException, s).

(** [close()] may be repeated. *)
Definition Serial_close (s : Serial) : result unit * Serial :=
  (inr tt, set_open false s).

(** [write(data)] returns [len(data)]; a closed port raises. *)
Definition Serial_write (data : bytes) (s : Serial) : result N * Serial :=
  if is_open s
  then (inr (N.of_nat (List.length data)), set_tx (tx s ++ data) s)
  else (inl PortNotOpenError, s).

(** [read_until(expected)] returns the bytes collected when the loop ends,
    whether or not [expected] was seen; a closed port raises. *)
Definition Serial_read_until (expected : bytes) (s : Serial)
  : result bytes * Serial :=
  if is_open s
  then let (r, rest) := read_until_loop expected [] (rx s) in
       (r, set_rx rest s)
  else (inl PortNotOpenError, s).

(** [serial.Serial(port, timeout=timeout)]: the port is opened at once.
    [script] is what the device sends from then on. *)
Definition Serial_new (dev_present : bool) (script : list rx_event)
    (p : str) (t : pynum) : result Serial :=
  match Serial_open {| port := p; timeout := t; is_open := false;
                       present := dev_present; rx := []; tx := [] |} with
  | (inr _, s) => inr (set_rx script s)
  | (inl e, _) => inl e
  end.

#[export] Instance PySerial : Transport Serial := {
  com_open := Serial_open;
  com_close := Serial_close;
  com_write := Serial_write;
  com_read_until := Serial_read_until
}.
End PySerial.

(** ** The driver: class [Monochromator] *)

(** [Response = namedtuple('Response', ['statement', 'response'])] *)
Record Response : Type := mkResponse { statement : str; response : str }.

(** The values that [grating] handles dynamically. *)
Inductive value : Type :=
| VStr (s : str)
| VResponse (r : Response)
| VList (items : list str).

(** [recv.split(sep)]: a method of [str]; a namedtuple and a list have no
    attribute of that name.  An empty separator is a [ValueError]. *)
Definition call_split (recv : value) (sep : str) : result value :=
  match recv with
  | VStr s =>
      match sep with
      | [] => inl ValueError
      | _ => inr (VList (split_go sep 0 [] s))
      end
  | VResponse _ => inl AttributeError
  | VList _ => inl AttributeError
  end.

(** [recv[i]] for a non-negative [i]. *)
Definition subscript (recv : value) (i : nat) : result value :=
  match recv with
  | VStr s => or_raise IndexError (option_map (fun c => VStr [c]) (nth_error s i))
  | VResponse r => getitem [VStr (statement r); VStr (response r)] i
  | VList items => or_raise IndexError (option_map VStr (nth_error items i))
  end.

(** The dict that [grating] returns. *)
Record GratingDict : Type := mkGrating {
  number : value;
  lines : value;
  label : value
}.

(** [self.term_chars] and [self.encoding] are assigned once, in [__init__]. *)
Definition term_chars : str := [0x0D; 0x0A].

(** The terminator as bytes. *)
Definition crlf : bytes := [x0d; x0a].

(** [if msg[-1] != '?': msg += '?'] *)
Definition add_question_mark (msg : str) : result str :=
  match last_char msg with
  | inl e => inl e
  | inr c => inr (if str_eqb c (lit "?") then msg else msg ++ lit "?")
  end.

(** The message that [query] goes on with, when there is one. *)
Definition question_form (msg : str) : str :=
  match add_question_mark msg with
  | inr q => q
  | inl _ => msg
  end.

Section Monochromator.
Context `{Runtime} {T : Type} `{Transport T}.

Local Abbreviation M := (M T).

(** *** Low level methods *)

Definition connect : M unit := invoke CallOpen com_open.

Definition disconnect : M unit := invoke CallClose com_close.

(** [__del__] *)
Definition del : M unit := invoke CallClose com_close.

Definition write (msg : str) : M N :=
  let msg := msg ++ term_chars in
  let msg := upper msg in
  data <- lift (encode msg) ;;
  invoke (CallWrite data) (com_write data).

Definition read : M str :=
  expected <- lift (encode term_chars) ;;
  resp <- invoke (CallReadUntil expected) (com_read_until expected) ;;
  lift (decode resp).

(** [args = map(str, args); msg = cmd + ' ' + ' '.join(args)] *)
Definition command_message (cmd : str) (args : list pyarg) : str :=
  let args := List.map py_str args in
  cmd ++ lit " " ++ join (lit " ") args.

(** What "joining the name and the string form of each argument with
    single spaces" denotes; [command_message] is compared with it. *)
Definition joined_with_spaces (cmd : str) (args : list pyarg) : str :=
  join (lit " ") (cmd :: List.map py_str args).

Definition command (cmd : str) (args : list pyarg) : M str :=
  let msg := command_message cmd args in
  _ <- write msg ;;
  resp <- read ;;
  ret (rstrip resp).

Definition query (msg : str) : M Response :=
  msg <- lift (add_question_mark msg) ;;
  _ <- write msg ;;
  l1 <- read ;;
  let statement := rstrip l1 in
  l2 <- read ;;
  let response := rstrip l2 in
  ret (mkResponse statement response).

(** *** High level methods *)

Definition info : M str :=
  resp <- query (lit "info") ;;
  ret (response resp).

Definition position : M pynum :=
  resp <- query (lit "wave") ;;
  let resp := response resp in
  lift (or_raise ValueError (py_float resp)).

Definition goto (wavelength : pynum) : M pynum :=
  let wavelength := format_3f wavelength in
  _ <- command (lit "gowave") [ArgStr wavelength] ;;
  position.


Definition grating : M GratingDict :=
  q <- query (lit "grat") ;;
  resp <- lift (call_split (VResponse q) (lit ",")) ;;
  r0 <- lift (subscript resp 0) ;;
  r1 <- lift (subscript resp 1) ;;
  r2 <- lift (subscript resp 2) ;;
  ret (mkGrating r0 r1 r2).

Definition set_grating (grating : pyarg) : M unit :=
  _ <- command (lit "grat") [ArgStr (py_str grating)] ;;
  ret tt.

Definition shuttered : M bool :=
  resp <- query (lit "shutter") ;;
  ret (str_eqb (response resp) (lit "C")).

Definition shutter (close : bool) : M unit :=
  let cmd := if close then lit "C" else lit "O" in
  _ <- command (lit "shutter") [ArgStr cmd] ;;
  ret tt.

Definition outport : M Z :=
  resp <- query (lit "outport") ;;
  lift (or_raise ValueError (py_int (response resp))).

Definition set_outport (port : pyarg) : M unit :=
  _ <- command (lit "outport") [ArgStr (py_str port)] ;;
  ret tt.

Definition slit_width (slit : pyarg) (width : option pyarg) : M Z :=
  let cmd := lit "slit" ++ py_str slit ++ lit "microns" in
  _ <- match width with
       | Some w => _ <- command cmd [ArgStr (py_str w)] ;; ret tt
       | None => ret tt
       end ;;
  resp <- query cmd ;;
  lift (or_raise ValueError (py_int (response resp))).



End Monochromator.

(** [Monochromator(port, timeout)]: [__init__] builds the serial port, which
    opens it.  The default of [timeout] is 5. *)
Definition default_timeout `{Runtime} : pynum := num_of_Z 5.

Definition init `{Runtime} (dev_present : bool) (script : list rx_event)
    (p : str) (t : pynum) : result (world Serial) :=
  match Serial_new dev_present script p t with
  | inr s => inr {| com := s; calls := [] |}
  | inl e => inl e
  end.

(** ** A runtime on integers, to run the model on examples *)

Definition str_of_Z (z : Z) : str := lit (NilZero.string_of_int (Z.to_int z)).

Definition Z_of_str (s : str) : option Z :=
  option_map Z.of_int
    (NilZero.int_of_string (string_of_list_ascii (List.map ascii_of_N s))).

Definition toy_runtime : Runtime := {|
  pynum := Z;
  object := Z;
  num_of_Z := fun z => z;
  unicode_upper := fun c => [c];
  object_str := str_of_Z;
  format_3f := fun z => str_of_Z z ++ lit ".000";
  py_float := Z_of_str;
  py_int := Z_of_str
|}.

(** The bytes of an ASCII text, and a device that sends the given lines, each
    followed by carriage return and line feed. *)
Definition ascii_bytes (s : string) : bytes := List.map byte_of_N (lit s).

Definition sends (texts : list string) : list rx_event :=
  flat_map (fun t => List.map RxByte (ascii_bytes t ++ crlf)) texts.

Definition port_with (opened : bool) (input : list rx_event)
  : @Serial toy_runtime :=
  @mkSerial toy_runtime (lit "COM9") 3%Z opened true input [].

Definition world_with (opened : bool) (input : list rx_event)
  : world (@Serial toy_runtime) :=
  {| com := port_with opened input; calls := [] |}.




(** ** Vocabulary for the statements about runs *)

(** The transport takes the frame made of [body] and the terminator. *)
Definition accepts {T : Type} `{Transport T} (t : T) (body : bytes) (t' : T)
  : Prop :=
  exists n, com_write (body ++ crlf) t = (inr n, t').

(** The next [read_until] returns bytes that decode to [text]. *)
Definition delivers {T : Type} `{Transport T} (t : T) (text : str) (t' : T)
  : Prop :=
  exists b, com_read_until crlf t = (inr b, t') /\ utf8_decode b = Some text.

(** The last character of [s], if any, is not whitespace. *)
Definition no_trailing_space (s : str) : Prop :=
  forall p c, s = p ++ [c] -> is_space c = false.

(** CR LF does not occur in [line]. *)
Definition unterminated (line : bytes) : Prop :=
  forall p q, line <> p ++ crlf ++ q.

(** An incoming event that cannot make [read] fail: an ASCII byte, or the
    deadline passing. *)
Definition tame (ev : rx_event) : bool :=
  match ev with
  | RxByte b => Byte.to_N b <? 0x80
  | RxTimeout => true
  | RxError => false
  end.

(** * Properties *)

(** ** Strings and the codec *)

Lemma str_eqb_eq (a b : str) : str_eqb a b = true <-> a = b.
Proof.
  unfold str_eqb. destruct (list_eq_dec N.eq_dec a b); split; congruence.
Qed.

Lemma upper_with_app (table : codepoint -> list codepoint) (a b : str) :
  upper_with table (a ++ b) = upper_with table a ++ upper_with table b.
Proof. unfold upper_with. apply flat_map_app. Qed.

Lemma ascii_upper_idempotent (c : codepoint) :
  ascii_upper (ascii_upper c) = ascii_upper c.
Proof.
  unfold ascii_upper.
  destruct ((0x61 <=? c) && (c <=? 0x7A)) eqn:E; [|now rewrite E].
  apply andb_true_iff in E. destruct E as [L U].
  apply N.leb_le in L. apply N.leb_le in U.
  replace (0x61 <=? c - 0x20) with false; [reflexivity|].
  symmetry. apply N.leb_gt. lia.
Qed.

Lemma utf8_encode_app (a b : str) :
  utf8_encode (a ++ b) =
    match utf8_encode a, utf8_encode b with
    | Some x, Some y => Some (x ++ y)
    | _, _ => None
    end.
Proof.
  induction a as [|c a IH]; simpl.
  - now destruct (utf8_encode b).
  - rewrite IH.
    destruct (utf8_encode_cp c), (utf8_encode a), (utf8_encode b);
      try reflexivity.
    now rewrite app_assoc.
Qed.

Lemma utf8_encode_term_chars : utf8_encode term_chars = Some crlf.
Proof. reflexivity. Qed.

Lemma last_char_snoc (s : str) (c : codepoint) : last_char (s ++ [c]) = inr [c].
Proof. unfold last_char. now rewrite rev_unit. Qed.

Lemma last_char_nonempty (s : str) :
  s <> [] -> exists c, last_char s = inr [c].
Proof.
  intros Hs. destruct (exists_last Hs) as [s' [c ->]].
  exists c. apply last_char_snoc.
Qed.

Lemma add_question_mark_nonempty (msg : str) :
  msg <> [] -> add_question_mark msg = inr (question_form msg).
Proof.
  intros Hs. unfold question_form, add_question_mark.
  destruct (last_char_nonempty Hs) as [c ->]. reflexivity.
Qed.

Lemma add_question_mark_fixed (msg q : str) :
  add_question_mark msg = inr q -> add_question_mark q = inr q.
Proof.
  unfold add_question_mark. destruct (last_char msg) as [e|c] eqn:L; [discriminate|].
  intros [= <-]. destruct (str_eqb c (lit "?")) eqn:E.
  - now rewrite L, E.
  - change (lit "?") with [63]. now rewrite last_char_snoc.
Qed.

(** ** The monad *)

Section MonadFacts.
Context {T A B : Type}.

Lemma bind_inr (m : M T A) (k : A -> M T B) w a w' :
  m w = (inr a, w') -> bind m k w = k a w'.
Proof. unfold bind. now intros ->. Qed.

Lemma bind_inl (m : M T A) (k : A -> M T B) w e w' :
  m w = (inl e, w') -> bind m k w = (inl e, w').
Proof. unfold bind. now intros ->. Qed.
End MonadFacts.

(** ** Framing: [write] and [read] over any transport *)

Section Framing.
Context `{Runtime} {T : Type} `{Transport T}.

Lemma upper_app (a b : str) : upper (a ++ b) = upper a ++ upper b.
Proof. apply upper_with_app. Qed.

Lemma upper_term_chars : upper term_chars = term_chars.
Proof. reflexivity. Qed.

Lemma write_ok (s : str) (w : world T) body n t :
  utf8_encode (upper s) = Some body ->
  com_write (body ++ crlf) (com w) = (inr n, t) ->
  write s w =
    (inr n, {| com := t; calls := calls w ++ [CallWrite (body ++ crlf)] |}).
Proof.
  intros He Hw. unfold write, bind, lift, encode, invoke.
  rewrite upper_app, upper_term_chars, utf8_encode_app, He.
  rewrite utf8_encode_term_chars. simpl. now rewrite Hw.
Qed.

Lemma write_raises (s : str) (w : world T) body e t :
  utf8_encode (upper s) = Some body ->
  com_write (body ++ crlf) (com w) = (inl e, t) ->
  write s w =
    (inl e, {| com := t; calls := calls w ++ [CallWrite (body ++ crlf)] |}).
Proof.
  intros He Hw. unfold write, bind, lift, encode, invoke.
  rewrite upper_app, upper_term_chars, utf8_encode_app, He.
  rewrite utf8_encode_term_chars. simpl. now rewrite Hw.
Qed.

Lemma write_unencodable (s : str) (w : world T) :
  utf8_encode (upper s) = None -> write s w = (inl UnicodeEncodeError, w).
Proof.
  intros He. unfold write, bind, lift, encode.
  now rewrite upper_app, utf8_encode_app, He.
Qed.

Lemma read_ok (w : world T) b t l :
  com_read_until crlf (com w) = (inr b, t) ->
  utf8_decode b = Some l ->
  read w = (inr l, {| com := t; calls := calls w ++ [CallReadUntil crlf] |}).
Proof.
  intros Hr Hd. unfold read, bind, lift, invoke, decode, encode.
  rewrite utf8_encode_term_chars. simpl. now rewrite Hr, Hd.
Qed.

(** C2. For every command string [s], [write s] hands the transport, in one
    [write] call, exactly the UTF-8 bytes of [upper s] followed by the two
    terminator bytes CR LF, and returns what the transport returns (the
    count it reports, or its exception).  A string that UTF-8 cannot encode
    raises [UnicodeEncodeError] before the transport is called. *)
Theorem write_frames_upper_then_terminator (s : str) (w : world T) :
  write s w =
    match utf8_encode (upper s) with
    | Some body =>
        let (r, t) := com_write (body ++ [x0d; x0a]) (com w) in
        (r, {| com := t;
               calls := calls w ++ [CallWrite (body ++ [x0d; x0a])] |})
    | None => (inl UnicodeEncodeError, w)
    end.
Proof.
  destruct (utf8_encode (upper s)) as [body|] eqn:He.
  - fold crlf.
    destruct (com_write (body ++ crlf) (com w)) as [[e|n] t] eqn:Hw.
    + now apply write_raises.
    + now apply write_ok.
  - now apply write_unencodable.
Qed.
End Framing.

(** ** The two primitives, [command] and [query], over any transport *)

Section Primitives.
Context `{Runtime} {T : Type} `{Transport T}.

Lemma write_same_upper (a b : str) (w : world T) :
  upper a = upper b -> write a w = write b w.
Proof. intros E. unfold write. now rewrite !upper_app, E. Qed.

(** The same run of [query], for the operations built on it. *)
Lemma query_ok (msg : str) (w : world T) body n t1 b1 t2 b2 t3 l1 l2 :
  msg <> [] ->
  utf8_encode (upper (question_form msg)) = Some body ->
  com_write (body ++ crlf) (com w) = (inr n, t1) ->
  com_read_until crlf t1 = (inr b1, t2) ->
  utf8_decode b1 = Some l1 ->
  com_read_until crlf t2 = (inr b2, t3) ->
  utf8_decode b2 = Some l2 ->
  query msg w =
    (inr (mkResponse (rstrip l1) (rstrip l2)),
     {| com := t3;
        calls := calls w ++ [CallWrite (body ++ crlf);
                             CallReadUntil crlf; CallReadUntil crlf] |}).
Proof.
  intros Hne He Hw Hr1 Hd1 Hr2 Hd2.
  unfold query, bind, lift, ret.
  rewrite (add_question_mark_nonempty Hne).
  rewrite (write_ok _ _ He Hw).
  erewrite read_ok by (simpl; eassumption).
  erewrite read_ok by (simpl; eassumption).
  simpl. now rewrite <- !app_assoc.
Qed.

Lemma command_ok (cmd : str) (args : list pyarg) (w : world T)
    body n t1 b t2 l :
  utf8_encode (upper (command_message cmd args)) = Some body ->
  com_write (body ++ crlf) (com w) = (inr n, t1) ->
  com_read_until crlf t1 = (inr b, t2) ->
  utf8_decode b = Some l ->
  command cmd args w =
    (inr (rstrip l),
     {| com := t2;
        calls := calls w ++ [CallWrite (body ++ crlf); CallReadUntil crlf] |}).
Proof.
  intros He Hw Hr Hd. unfold command, bind, ret.
  rewrite (write_ok _ _ He Hw).
  erewrite read_ok by (simpl; eassumption).
  simpl. now rewrite <- !app_assoc.
Qed.

Lemma command_message_joined (cmd : str) (args : list pyarg) :
  args <> [] -> command_message cmd args = joined_with_spaces cmd args.
Proof.
  intros Hne. unfold command_message, joined_with_spaces.
  destruct args as [|a args]; [congruence|]. reflexivity.
Qed.

(** C1. For every non-empty [msg], when the transport accepts the write and
    delivers two decodable lines, [query msg] makes exactly one [write]
    call followed by exactly two [read_until] calls, in that order, and
    returns the pair whose [statement] is the first line and whose
    [response] is the second line, each stripped of trailing whitespace. *)
Theorem query_one_write_then_two_reads (msg : str) (w : world T)
    body n t1 b1 t2 b2 t3 l1 l2 :
  msg <> [] ->
  utf8_encode (upper (question_form msg)) = Some body ->
  com_write (body ++ crlf) (com w) = (inr n, t1) ->
  com_read_until crlf t1 = (inr b1, t2) ->
  utf8_decode b1 = Some l1 ->
  com_read_until crlf t2 = (inr b2, t3) ->
  utf8_decode b2 = Some l2 ->
  query msg w =
    (inr {| statement := rstrip l1; response := rstrip l2 |},
     {| com := t3;
        calls := calls w ++ [CallWrite (body ++ crlf);
                             CallReadUntil crlf; CallReadUntil crlf] |}).
Proof.
  intros Hne He Hw Hr1 Hd1 Hr2 Hd2.
  unfold query, bind, lift, ret.
  rewrite (add_question_mark_nonempty Hne).
  rewrite (write_ok _ _ He Hw).
  erewrite read_ok by (simpl; eassumption).
  erewrite read_ok by (simpl; eassumption).
  simpl. now rewrite <- !app_assoc.
Qed.

(** C5, as amended.  The outgoing message of [command name args] is the
    name, one space, and the string forms of the arguments joined by single
    spaces: for a non-empty argument list that is the name and the
    arguments joined by single spaces, for the empty list it is the name
    followed by one space.  When the transport accepts the write and
    delivers a decodable line, the message is written once, one line is
    read, and that line is returned stripped of trailing whitespace. *)
Theorem command_one_write_then_one_read (cmd : str) (args : list pyarg)
    (w : world T) body n t1 b t2 l :
  utf8_encode (upper (command_message cmd args)) = Some body ->
  com_write (body ++ crlf) (com w) = (inr n, t1) ->
  com_read_until crlf t1 = (inr b, t2) ->
  utf8_decode b = Some l ->
  command cmd args w =
    (inr (rstrip l),
     {| com := t2;
        calls := calls w ++ [CallWrite (body ++ crlf); CallReadUntil crlf] |})
  /\ command_message cmd args =
       match args with
       | [] => cmd ++ lit " "
       | _ :: _ => joined_with_spaces cmd args
       end.
Proof.
  intros He Hw Hr Hd. split.
  - now apply command_ok with (n := n) (t1 := t1) (b := b).
  - destruct args as [|a args]; [|now apply command_message_joined].
    unfold command_message. simpl. reflexivity.
Qed.

(** C7. [query("wave")] and [query("WAVE?")] behave alike on every
    transport state, and both hand the transport the bytes of [WAVE?]
    followed by CR LF.  Adding the question mark is idempotent, and so is
    the ASCII upper-casing. *)
Theorem query_wave_same_wire_bytes :
  (forall w : world T, query (lit "wave") w = query (lit "WAVE?") w)
  /\ encode (upper (question_form (lit "wave") ++ term_chars))
     = inr (ascii_bytes "WAVE?" ++ crlf)
  /\ encode (upper (question_form (lit "WAVE?") ++ term_chars))
     = inr (ascii_bytes "WAVE?" ++ crlf)
  /\ (forall m, add_question_mark (question_form m) = add_question_mark m)
  /\ (forall m, question_form (question_form m) = question_form m)
  /\ (forall c, ascii_upper (ascii_upper c) = ascii_upper c).
Proof.
  refine (conj _ (conj _ (conj _ (conj _ (conj _ _))))).
  - intros w. unfold query, bind, lift.
    change (add_question_mark (lit "wave")) with (@inr exn _ (lit "wave?")).
    change (add_question_mark (lit "WAVE?")) with (@inr exn _ (lit "WAVE?")).
    cbv beta iota.
    now rewrite (@write_same_upper (lit "wave?") (lit "WAVE?") w).
  - reflexivity.
  - reflexivity.
  - intros m. unfold question_form.
    destruct (add_question_mark m) as [e|q] eqn:E; [now rewrite E|].
    now apply add_question_mark_fixed with (msg := m).
  - intros m. unfold question_form.
    destruct (add_question_mark m) as [e|q] eqn:E.
    + now rewrite E.
    + now rewrite (add_question_mark_fixed m E).
  - apply ascii_upper_idempotent.
Qed.

(** C10. [query("")] raises [IndexError] while the question mark is looked
    for; the transport is not called and its state is unchanged. *)
Theorem query_empty_raises_IndexError (w : world T) :
  query [] w = (inl IndexError, w).
Proof. reflexivity. Qed.

(** C6. [shuttered] returns true exactly when the response of
    [query("shutter")], the [response] field of the pair that the query
    returns, is the string [C]; for every other response, the empty string
    included, it returns false. *)
Theorem shuttered_iff_response_is_C (w : world T) (r : Response)
    (w' : world T) :
  query (lit "shutter") w = (inr r, w') ->
  exists answer : bool,
    shuttered w = (inr answer, w')
    /\ (answer = true <-> response r = lit "C")
    /\ (response r = [] -> answer = false).
Proof.
  intros Hq. exists (str_eqb (response r) (lit "C")).
  refine (conj _ (conj _ _)).
  - unfold shuttered, bind, ret. now rewrite Hq.
  - apply str_eqb_eq.
  - now intros ->.
Qed.

(** [grating] applies [split] to the namedtuple that [query] returns. *)
Lemma grating_outcome (w : world T) :
  grating w =
    match query (lit "grat") w with
    | (inr _, w') => (inl AttributeError, w')
    | (inl e, w') => (inl e, w')
    end.
Proof.
  unfold grating, bind.
  destruct (query (lit "grat") w) as [[e|q] w']; reflexivity.
Qed.
End Primitives.

(** ** The driver on a pyserial port *)

Lemma bytes_eqb_false (a b : bytes) : a <> b -> bytes_eqb a b = false.
Proof.
  intros Hab. unfold bytes_eqb.
  destruct (list_eq_dec byte_eq_dec a b); congruence.
Qed.

Lemma tail_slice_is_suffix (n : nat) (line : bytes) :
  exists p, line = p ++ tail_slice n line.
Proof.
  destruct n as [|n]; simpl.
  - now exists [].
  - exists (firstn (List.length line - S n) line).
    now rewrite firstn_skipn.
Qed.

Lemma read_until_loop_times_out (expected line received : bytes)
    (rest : list rx_event) :
  (forall p q, line ++ received <> p ++ expected ++ q) ->
  read_until_loop expected line (List.map RxByte received ++ RxTimeout :: rest)
  = (inr (line ++ received), rest).
Proof.
  revert line. induction received as [|b received IH]; intros line Hno.
  - simpl. now rewrite app_nil_r.
  - simpl. rewrite bytes_eqb_false.
    + rewrite IH; rewrite <- app_assoc; [reflexivity|exact Hno].
    + intros Heq.
      destruct (tail_slice_is_suffix (List.length expected) (line ++ [b]))
        as [p Hp].
      rewrite Heq in Hp. apply (Hno p received).
      change (b :: received) with ([b] ++ received).
      now rewrite app_assoc, Hp, <- app_assoc.
Qed.

Section OnPySerial.
Context `{Runtime}.








(** C8. Constructing the driver on a device that can be opened yields an
    open port carrying the given port name and timeout; [__del__] closes
    the port in whatever state it finds it, open or already closed, and
    so does [disconnect]. *)
Theorem port_opened_at_construction_closed_at_teardown :
  (forall script p t,
     exists w, init true script p t = inr w
               /\ is_open (com w) = true
               /\ timeout (com w) = t
               /\ port (com w) = p)
  /\ (forall w : world Serial,
        fst (del w) = inr tt /\ is_open (com (snd (del w))) = false)
  /\ (forall w : world Serial,
        fst (disconnect w) = inr tt
        /\ is_open (com (snd (disconnect w))) = false).
Proof.
  refine (conj _ (conj _ _)).
  - intros script p t. eexists. repeat split.
  - intros w. split; reflexivity.
  - intros w. split; reflexivity.
Qed.

(** C9, as amended.  When the deadline passes before the terminator has
    been seen, [read] does not fail on that account: it returns the text
    decoded from the bytes received so far, partial or empty, as its
    result, and its only possible failure is [UnicodeDecodeError], when
    those bytes are not valid UTF-8. *)
Theorem read_returns_text_received_before_timeout (s : Serial)
    (cs : list call) (received : bytes) (rest : list rx_event) :
  is_open s = true ->
  rx s = List.map RxByte received ++ RxTimeout :: rest ->
  (forall p q, received <> p ++ crlf ++ q) ->
  read {| com := s; calls := cs |} =
    (match utf8_decode received with
     | Some text => inr text
     | None => inl UnicodeDecodeError
     end,
     {| com := set_rx rest s; calls := cs ++ [CallReadUntil crlf] |}).
Proof.
  intros Ho Hrx Hno. unfold read, bind, lift, invoke, encode.
  rewrite utf8_encode_term_chars. simpl. unfold Serial_read_until.
  rewrite Ho, Hrx, read_until_loop_times_out by exact Hno.
  reflexivity.
Qed.

(** A failure of the operating system while reading is the port's
    [SerialException]. *)
Lemma read_io_error (s : Serial) (cs : list call) (rest : list rx_event) :
  is_open s = true ->
  rx s = RxError :: rest ->
  read {| com := s; calls := cs |} =
    (inl SerialException,
     {| com := set_rx rest s; calls := cs ++ [CallReadUntil crlf] |}).
Proof.
  intros Ho Hrx. unfold read, bind, lift, invoke, encode.
  rewrite utf8_encode_term_chars. simpl. unfold Serial_read_until.
  now rewrite Ho, Hrx.
Qed.
End OnPySerial.

(** ** The driver run on examples *)

Section Examples.
Local Open Scope string_scope.

#[local] Existing Instance toy_runtime.

(** C4. [grating] never returns a descriptor: once its query has
    succeeded it raises [AttributeError], because [split] is looked up on
    the namedtuple and not on its [response] field.  A device that answers
    [1,1200,BLUE] shows it, and the same text split on the comma does
    have three fields. *)
Theorem grating_raises_AttributeError :
  (forall (Rt : Runtime) (T : Type) (Tr : Transport T) (w : world T),
     grating w =
       match query (lit "grat") w with
       | (inr _, w') => (inl AttributeError, w')
       | (inl e, w') => (inl e, w')
       end)
  /\ fst (grating (world_with true (sends ["GRAT?"; "1,1200,BLUE"])))
     = inl AttributeError
  /\ call_split (VStr (lit "1,1200,BLUE")) (lit ",")
     = inr (VList [lit "1"; lit "1200"; lit "BLUE"]).
Proof.
  refine (conj _ (conj _ _)).
  - intros Rt T Tr w. apply grating_outcome.
  - reflexivity.
  - reflexivity.
Qed.

(** A query answered by the echo and the value. *)
Lemma query_one_write_then_two_reads_witness :
  exists w',
    query (lit "wave") (world_with true (sends ["WAVE?"; "599.984"]))
    = (inr {| statement := rstrip (lit "WAVE?" ++ term_chars)%list;
              response := rstrip (lit "599.984" ++ term_chars)%list |}, w').
Proof.
  eexists.
  eapply (@query_one_write_then_two_reads toy_runtime _ _ (lit "wave")
            (world_with true (sends ["WAVE?"; "599.984"]))).
  - discriminate.
  - reflexivity.
  - reflexivity.
  - reflexivity.
  - reflexivity.
  - reflexivity.
  - reflexivity.
Defined.

(** A command acknowledged by its echo. *)
Lemma command_one_write_then_one_read_witness :
  exists w',
    command (lit "gowave") [ArgStr (lit "600.000")]
      (world_with true (sends ["GOWAVE 600.000"]))
    = (inr (rstrip (lit "GOWAVE 600.000" ++ term_chars)%list), w').
Proof.
  eexists.
  eapply proj1.
  eapply (@command_one_write_then_one_read toy_runtime _ _ (lit "gowave")
            [ArgStr (lit "600.000")]
            (world_with true (sends ["GOWAVE 600.000"]))).
  - reflexivity.
  - reflexivity.
  - reflexivity.
  - reflexivity.
Defined.

(** C5 fails for the empty argument list: [abort] sends [ABORT] followed
    by a space, where joining with single spaces gives [ABORT] alone. *)
Lemma command_without_arguments_sends_trailing_space :
  command_message (lit "abort") [] <> joined_with_spaces (lit "abort") []
  /\ calls (snd (command (lit "abort") []
                   (world_with true (sends ["ABORT"]))))
     = [CallWrite (ascii_bytes "ABORT " ++ crlf)%list; CallReadUntil crlf]
  /\ encode (upper (joined_with_spaces (lit "abort") [] ++ term_chars)%list)
     = inr (ascii_bytes "ABORT" ++ crlf)%list
  /\ (ascii_bytes "ABORT " ++ crlf <> ascii_bytes "ABORT" ++ crlf)%list.
Proof.
  refine (conj _ (conj _ (conj _ _))).
  - discriminate.
  - reflexivity.
  - reflexivity.
  - discriminate.
Qed.

(** A closed shutter. *)
Lemma shuttered_iff_response_is_C_witness :
  fst (shuttered (world_with true (sends ["SHUTTER?"; "C"]))) = inr true.
Proof.
  assert (Hq : exists r w',
             query (lit "shutter")
               (world_with true (sends ["SHUTTER?"; "C"])) = (inr r, w')
             /\ response r = lit "C")
    by (eexists; eexists; split; vm_compute; reflexivity).
  destruct Hq as [r [w' [Hq Hr]]].
  destruct (@shuttered_iff_response_is_C toy_runtime _ _
              (world_with true (sends ["SHUTTER?"; "C"])) r w' Hq)
    as [answer [Hs [Hiff _]]].
  rewrite Hs. simpl. f_equal. now apply Hiff.
Defined.



(** A line cut after two characters by the deadline. *)
Lemma read_returns_text_received_before_timeout_witness :
  read (world_with true [RxByte x35; RxByte x39; RxTimeout])
  = (inr (lit "59"),
     {| com := set_rx [] (port_with true [RxByte x35; RxByte x39; RxTimeout]);
        calls := [CallReadUntil crlf] |}).
Proof.
  apply (@read_returns_text_received_before_timeout toy_runtime
           (port_with true [RxByte x35; RxByte x39; RxTimeout]) []
           [x35; x39] [] eq_refl eq_refl).
  intros p q E. unfold crlf in E.
  destruct p as [|a [|b [|c p]]]; discriminate E.
Defined.

(** C9 fails when the line is cut by the deadline: [read] returns the two
    characters that arrived, and an empty string when nothing arrived. *)
Lemma read_succeeds_with_partial_and_empty_text :
  fst (read (world_with true [RxByte x35; RxByte x39; RxTimeout]))
    = inr (lit "59")
  /\ fst (read (world_with true [RxTimeout])) = inr []
  /\ ~ (exists e,
          fst (read (world_with true [RxByte x35; RxByte x39; RxTimeout]))
            = inl e
          /\ exn_name e = "TimeoutError").
Proof.
  refine (conj _ (conj _ _)); [reflexivity|reflexivity|].
  intros [e [He _]]. discriminate He.
Qed.
End Examples.

(** ** The UTF-8 codec: decoding undoes encoding *)

Lemma lor_add (a b : N) : N.land a b = 0 -> N.lor a b = a + b.
Proof.
  intros L. rewrite N.add_nocarry_lxor by exact L. symmetry.
  now apply N.lxor_lor.
Qed.

Lemma land_shiftl_low (a l k : N) : l < 2 ^ k -> N.land (N.shiftl a k) l = 0.
Proof.
  intros Hl. apply N.bits_inj_0. intros n. rewrite N.land_spec.
  destruct (N.lt_ge_cases n k) as [Hn|Hn].
  - now rewrite N.shiftl_spec_low.
  - destruct (N.eq_dec l 0) as [->|Hz].
    + now rewrite N.bits_0, andb_false_r.
    + rewrite (N.bits_above_log2 l n), andb_false_r; [reflexivity|].
      apply N.lt_le_trans with k; [|exact Hn].
      apply N.log2_lt_pow2; [lia|exact Hl].
Qed.

Lemma lor_shiftl_low (a l k : N) :
  l < 2 ^ k -> N.lor (N.shiftl a k) l = a * 2 ^ k + l.
Proof.
  intros Hl. rewrite lor_add by now apply land_shiftl_low.
  now rewrite N.shiftl_mul_pow2.
Qed.

Lemma to_N_byte_of_N (n : N) : n < 256 -> Byte.to_N (byte_of_N n) = n.
Proof.
  intros Hn. unfold byte_of_N.
  destruct (Byte.of_N n) as [b|] eqn:E.
  - now apply Byte.to_of_N.
  - apply Byte.of_N_None_iff in E. lia.
Qed.

Ltac divlia := zify; Z.to_euclidean_division_equations; lia.

Lemma low6 (x : N) : N.land x 0x3F = x mod 64.
Proof. change 0x3F with (N.ones 6). now rewrite N.land_ones. Qed.

Lemma shr6 (x : N) : N.shiftr x 6 = x / 64.
Proof. now rewrite N.shiftr_div_pow2. Qed.

Lemma shr12 (x : N) : N.shiftr x 12 = x / 4096.
Proof. now rewrite N.shiftr_div_pow2. Qed.

Lemma shr18 (x : N) : N.shiftr x 18 = x / 262144.
Proof. now rewrite N.shiftr_div_pow2. Qed.

Lemma cont_byte_value (x : N) :
  Byte.to_N (byte_of_N (N.lor 0x80 (N.land x 0x3F))) = 128 + x mod 64.
Proof.
  rewrite low6. change (N.lor 0x80) with (N.lor (N.shiftl 2 6)).
  rewrite lor_shiftl_low by (change (2 ^ 6) with 64; divlia).
  change (2 ^ 6) with 64. apply to_N_byte_of_N. divlia.
Qed.

Lemma lead2_value (c : N) :
  c < 0x800 -> Byte.to_N (byte_of_N (N.lor 0xC0 (N.shiftr c 6))) = 192 + c / 64.
Proof.
  intros Hc. rewrite shr6. change (N.lor 0xC0) with (N.lor (N.shiftl 3 6)).
  rewrite lor_shiftl_low by (change (2 ^ 6) with 64; divlia).
  change (2 ^ 6) with 64. apply to_N_byte_of_N. divlia.
Qed.

Lemma lead3_value (c : N) :
  c < 0x10000 ->
  Byte.to_N (byte_of_N (N.lor 0xE0 (N.shiftr c 12))) = 224 + c / 4096.
Proof.
  intros Hc. rewrite shr12. change (N.lor 0xE0) with (N.lor (N.shiftl 14 4)).
  rewrite lor_shiftl_low by (change (2 ^ 4) with 16; divlia).
  change (2 ^ 4) with 16. apply to_N_byte_of_N. divlia.
Qed.

Lemma lead4_value (c : N) :
  c < 0x110000 ->
  Byte.to_N (byte_of_N (N.lor 0xF0 (N.shiftr c 18))) = 240 + c / 262144.
Proof.
  intros Hc. rewrite shr18. change (N.lor 0xF0) with (N.lor (N.shiftl 30 3)).
  rewrite lor_shiftl_low by (change (2 ^ 3) with 8; divlia).
  change (2 ^ 3) with 8. apply to_N_byte_of_N. divlia.
Qed.

Lemma utf8_decode_cons (b0 : byte) (r0 : bytes) :
  utf8_decode (b0 :: r0) =
      let n0 := Byte.to_N b0 in
      if n0 <? 0x80 then option_map (cons n0) (utf8_decode r0)
      else if n0 <? 0xC2 then None
      else if n0 <? 0xE0 then
        match r0 with
        | b1 :: r1 =>
            if is_cont b1
            then option_map
                   (cons (N.lor (N.shiftl (N.land n0 0x1F) 6) (cont_bits b1)))
                   (utf8_decode r1)
            else None
        | _ => None
        end
      else if n0 <? 0xF0 then
        match r0 with
        | b1 :: b2 :: r2 =>
            let n1 := Byte.to_N b1 in
            if is_cont b1 && is_cont b2
               && negb ((n0 =? 0xE0) && (n1 <? 0xA0))
               && negb ((n0 =? 0xED) && (0xA0 <=? n1))
            then option_map
                   (cons (N.lor (N.shiftl (N.land n0 0x0F) 12)
                            (N.lor (N.shiftl (cont_bits b1) 6) (cont_bits b2))))
                   (utf8_decode r2)
            else None
        | _ => None
        end
      else if n0 <? 0xF5 then
        match r0 with
        | b1 :: b2 :: b3 :: r3 =>
            let n1 := Byte.to_N b1 in
            if is_cont b1 && is_cont b2 && is_cont b3
               && negb ((n0 =? 0xF0) && (n1 <? 0x90))
               && negb ((n0 =? 0xF4) && (0x90 <=? n1))
            then option_map
                   (cons (N.lor (N.shiftl (N.land n0 0x07) 18)
                            (N.lor (N.shiftl (cont_bits b1) 12)
                               (N.lor (N.shiftl (cont_bits b2) 6)
                                  (cont_bits b3)))))
                   (utf8_decode r3)
            else None
        | _ => None
        end
      else None.
Proof. reflexivity. Qed.

Ltac split_tests :=
  repeat (match goal with
          | |- context [N.ltb ?a ?b] => destruct (N.ltb_spec a b)
          | |- context [N.leb ?a ?b] => destruct (N.leb_spec a b)
          | |- context [N.eqb ?a ?b] => destruct (N.eqb_spec a b)
          end;
          cbn [andb negb]; cbv beta iota; try (exfalso; lia)).

Lemma cont_low (m : N) : m < 64 -> (128 + m) mod 64 = m.
Proof. intros Hm. divlia. Qed.

Lemma utf8_decode_one (b0 : byte) (rest : bytes) (c : codepoint) :
  c < 0x80 -> Byte.to_N b0 = c ->
  utf8_decode (b0 :: rest) = option_map (cons c) (utf8_decode rest).
Proof.
  intros Hc E0. rewrite utf8_decode_cons. cbv beta iota zeta. rewrite E0.
  destruct (N.ltb_spec c 0x80); [reflexivity|lia].
Qed.

Lemma utf8_decode_two (b0 b1 : byte) (rest : bytes) (c : codepoint) :
  0x80 <= c < 0x800 ->
  Byte.to_N b0 = 192 + c / 64 ->
  Byte.to_N b1 = 128 + c mod 64 ->
  utf8_decode (b0 :: b1 :: rest) = option_map (cons c) (utf8_decode rest).
Proof.
  intros Hc E0 E1.
  assert (D : c = c / 64 * 64 + c mod 64 /\ c mod 64 < 64
              /\ 2 <= c / 64 < 32) by divlia.
  revert E0 E1 D. generalize (c / 64) (c mod 64). intros h m E0 E1 D.
  rewrite utf8_decode_cons. cbv beta iota zeta.
  unfold is_cont, cont_bits. cbv beta iota zeta. rewrite E0, E1.
  split_tests.
  change 0x1F with (N.ones 5). rewrite N.land_ones, low6.
  change (2 ^ 5) with 32. rewrite cont_low by lia.
  replace ((192 + h) mod 32) with h by divlia.
  rewrite lor_shiftl_low by (change (2 ^ 6) with 64; lia).
  change (2 ^ 6) with 64. do 2 f_equal. lia.
Qed.

Lemma utf8_decode_three (b0 b1 b2 : byte) (rest : bytes) (c : codepoint) :
  0x800 <= c < 0x10000 ->
  c < 0xD800 \/ 0xE000 <= c ->
  Byte.to_N b0 = 224 + c / 4096 ->
  Byte.to_N b1 = 128 + (c / 64) mod 64 ->
  Byte.to_N b2 = 128 + c mod 64 ->
  utf8_decode (b0 :: b1 :: b2 :: rest) = option_map (cons c) (utf8_decode rest).
Proof.
  intros Hc Hs E0 E1 E2.
  assert (D : c = c / 4096 * 4096 + (c / 64) mod 64 * 64 + c mod 64
              /\ (c / 64) mod 64 < 64 /\ c mod 64 < 64 /\ c / 4096 < 16)
    by divlia.
  revert E0 E1 E2 D.
  generalize (c / 4096) ((c / 64) mod 64) (c mod 64).
  intros h m1 m2 E0 E1 E2 D.
  rewrite utf8_decode_cons. cbv beta iota zeta.
  unfold is_cont, cont_bits. cbv beta iota zeta. rewrite E0, E1, E2.
  split_tests.
  all: change 0x0F with (N.ones 4); rewrite N.land_ones, !low6.
  all: change (2 ^ 4) with 16; rewrite !cont_low by lia.
  all: replace ((224 + h) mod 16) with h by divlia.
  all: rewrite (@lor_shiftl_low _ _ 6) by (change (2 ^ 6) with 64; lia).
  all: rewrite lor_shiftl_low
         by (change (2 ^ 12) with 4096; change (2 ^ 6) with 64; lia).
  all: change (2 ^ 6) with 64; change (2 ^ 12) with 4096.
  all: do 2 f_equal; lia.
Qed.

Lemma utf8_decode_four (b0 b1 b2 b3 : byte) (rest : bytes) (c : codepoint) :
  0x10000 <= c < 0x110000 ->
  Byte.to_N b0 = 240 + c / 262144 ->
  Byte.to_N b1 = 128 + (c / 4096) mod 64 ->
  Byte.to_N b2 = 128 + (c / 64) mod 64 ->
  Byte.to_N b3 = 128 + c mod 64 ->
  utf8_decode (b0 :: b1 :: b2 :: b3 :: rest)
  = option_map (cons c) (utf8_decode rest).
Proof.
  intros Hc E0 E1 E2 E3.
  assert (D : c = c / 262144 * 262144 + (c / 4096) mod 64 * 4096
                  + (c / 64) mod 64 * 64 + c mod 64
              /\ (c / 4096) mod 64 < 64 /\ (c / 64) mod 64 < 64
              /\ c mod 64 < 64 /\ c / 262144 < 8)
    by divlia.
  revert E0 E1 E2 E3 D.
  generalize (c / 262144) ((c / 4096) mod 64) ((c / 64) mod 64) (c mod 64).
  intros h m1 m2 m3 E0 E1 E2 E3 D.
  rewrite utf8_decode_cons. cbv beta iota zeta.
  unfold is_cont, cont_bits. cbv beta iota zeta. rewrite E0, E1, E2, E3.
  split_tests.
  all: change 0x07 with (N.ones 3); rewrite N.land_ones, !low6.
  all: change (2 ^ 3) with 8; rewrite !cont_low by lia.
  all: replace ((240 + h) mod 8) with h by divlia.
  all: rewrite (@lor_shiftl_low _ _ 6) by (change (2 ^ 6) with 64; lia).
  all: rewrite (@lor_shiftl_low _ _ 12)
         by (change (2 ^ 12) with 4096; change (2 ^ 6) with 64; lia).
  all: rewrite lor_shiftl_low
         by (change (2 ^ 18) with 262144; change (2 ^ 12) with 4096;
             change (2 ^ 6) with 64; lia).
  all: change (2 ^ 6) with 64; change (2 ^ 12) with 4096;
       change (2 ^ 18) with 262144.
  all: do 2 f_equal; lia.
Qed.

Lemma utf8_decode_encode_cp (c : codepoint) (b rest : bytes) :
  utf8_encode_cp c = Some b ->
  utf8_decode (b ++ rest) = option_map (cons c) (utf8_decode rest).
Proof.
  unfold utf8_encode_cp.
  destruct (N.ltb_spec c 0x80) as [H1|H1].
  { intros E. assert (b = [byte_of_N c]) as -> by congruence.
    apply utf8_decode_one; [exact H1|]. apply to_N_byte_of_N. lia. }
  destruct (N.ltb_spec c 0x800) as [H2|H2].
  { intros E.
    assert (b = [byte_of_N (N.lor 0xC0 (N.shiftr c 6));
                 byte_of_N (N.lor 0x80 (N.land c 0x3F))]) as -> by congruence.
    apply utf8_decode_two; [lia|now apply lead2_value|apply cont_byte_value]. }
  destruct (N.ltb_spec c 0x10000) as [H3|H3].
  { destruct ((0xD800 <=? c) && (c <? 0xE000)) eqn:Hs; [discriminate|].
    intros E.
    assert (b = [byte_of_N (N.lor 0xE0 (N.shiftr c 12));
                 byte_of_N (N.lor 0x80 (N.land (N.shiftr c 6) 0x3F));
                 byte_of_N (N.lor 0x80 (N.land c 0x3F))]) as -> by congruence.
    apply andb_false_iff in Hs. rewrite N.leb_gt, N.ltb_ge in Hs.
    apply utf8_decode_three;
      [lia|exact Hs|now apply lead3_value| |apply cont_byte_value].
    rewrite cont_byte_value. now rewrite shr6. }
  destruct (N.ltb_spec c 0x110000) as [H4|H4]; [|discriminate].
  intros E.
  assert (b = [byte_of_N (N.lor 0xF0 (N.shiftr c 18));
               byte_of_N (N.lor 0x80 (N.land (N.shiftr c 12) 0x3F));
               byte_of_N (N.lor 0x80 (N.land (N.shiftr c 6) 0x3F));
               byte_of_N (N.lor 0x80 (N.land c 0x3F))]) as -> by congruence.
  apply utf8_decode_four;
    [lia|now apply lead4_value| | |apply cont_byte_value].
  - rewrite cont_byte_value. now rewrite shr12.
  - rewrite cont_byte_value. now rewrite shr6.
Qed.

Lemma utf8_round_trip (s : str) (bs : bytes) :
  utf8_encode s = Some bs -> utf8_decode bs = Some s.
Proof.
  revert bs. induction s as [|c s IH]; intros bs.
  - now intros [= <-].
  - simpl. destruct (utf8_encode_cp c) as [b|] eqn:Ec; [|discriminate].
    destruct (utf8_encode s) as [bs'|] eqn:Es; [|discriminate].
    intros [= <-].
    rewrite (@utf8_decode_encode_cp c b bs' Ec), (IH bs' eq_refl).
    reflexivity.
Qed.

(** X12. Decoding undoes encoding: the bytes that [encode] produces for a
    string are decoded by [decode] to that same string, so no
    [UnicodeDecodeError] can come from bytes this codec has written. *)
Theorem decode_undoes_encode (s : str) (bs : bytes) :
  encode s = inr bs -> decode bs = inr s.
Proof.
  unfold encode, decode.
  destruct (utf8_encode s) as [bs'|] eqn:E; [|discriminate].
  intros [= <-]. now rewrite (utf8_round_trip _ E).
Qed.

(** ** [str.rstrip] *)

Lemma rstrip_no_trailing_space (s : str) : no_trailing_space (rstrip s).
Proof.
  unfold no_trailing_space.
  induction s as [|a s IH]; intros p c E; simpl in E.
  - now destruct p.
  - destruct (rstrip s) as [|b t] eqn:R.
    + destruct (is_space a) eqn:Sa.
      * now destruct p.
      * destruct p as [|x p]; [now injection E as <-|].
        injection E as _ E. now destruct p.
    + destruct p as [|x p]; [discriminate E|].
      injection E as _ E. now apply (IH p c).
Qed.

Lemma rstrip_app_space (s t : str) :
  forallb is_space t = true -> rstrip (s ++ t) = rstrip s.
Proof.
  intros Ht.
  assert (Hz : rstrip t = []).
  { induction t as [|c t IH]; [reflexivity|].
    simpl in Ht. apply andb_true_iff in Ht. destruct Ht as [Hc Ht].
    simpl. now rewrite (IH Ht), Hc. }
  induction s as [|a s IH]; simpl; [exact Hz|]. now rewrite IH.
Qed.

(** ** More on the primitives, over any transport *)

Section Runs.
Context `{Runtime} {T : Type} `{Transport T}.

Lemma write_accepted (s : str) (w : world T) body t :
  utf8_encode (upper s) = Some body ->
  accepts (com w) body t ->
  exists n,
    write s w =
      (inr n, {| com := t; calls := calls w ++ [CallWrite (body ++ crlf)] |}).
Proof. intros He [n Hw]. exists n. now apply write_ok. Qed.

Lemma read_delivered (w : world T) l t :
  delivers (com w) l t ->
  read w = (inr l, {| com := t; calls := calls w ++ [CallReadUntil crlf] |}).
Proof. intros [b [Hr Hd]]. now apply read_ok with (b := b). Qed.

Lemma command_run (cmd : str) (args : list pyarg) (w : world T) body t1 l t2 :
  utf8_encode (upper (command_message cmd args)) = Some body ->
  accepts (com w) body t1 ->
  delivers t1 l t2 ->
  command cmd args w =
    (inr (rstrip l),
     {| com := t2;
        calls := calls w ++ [CallWrite (body ++ crlf); CallReadUntil crlf] |}).
Proof.
  intros He [n Hw] [b [Hr Hd]].
  now apply command_ok with (n := n) (t1 := t1) (b := b).
Qed.

Lemma query_run (msg : str) (w : world T) body t1 l1 t2 l2 t3 :
  msg <> [] ->
  utf8_encode (upper (question_form msg)) = Some body ->
  accepts (com w) body t1 ->
  delivers t1 l1 t2 ->
  delivers t2 l2 t3 ->
  query msg w =
    (inr (mkResponse (rstrip l1) (rstrip l2)),
     {| com := t3;
        calls := calls w ++ [CallWrite (body ++ crlf);
                             CallReadUntil crlf; CallReadUntil crlf] |}).
Proof.
  intros Hne He [n Hw] [b1 [Hr1 Hd1]] [b2 [Hr2 Hd2]].
  now apply query_ok with (n := n) (t1 := t1) (b1 := b1) (t2 := t2) (b2 := b2).
Qed.

Lemma frame_app (pre s : str) (pb sb : bytes) :
  utf8_encode (upper pre) = Some pb ->
  utf8_encode (upper s) = Some sb ->
  utf8_encode (upper (pre ++ s)) = Some (pb ++ sb).
Proof. intros Hp Hs. now rewrite upper_app, utf8_encode_app, Hp, Hs. Qed.

Lemma question_form_snoc (s : str) (c : codepoint) :
  question_form (s ++ [c]) = if c =? 63 then s ++ [c] else s ++ [c; 63].
Proof.
  unfold question_form, add_question_mark. rewrite last_char_snoc.
  change (lit "?") with [63].
  destruct (N.eqb_spec c 63) as [->|Hc].
  - reflexivity.
  - destruct (str_eqb [c] [63]) eqn:E.
    + apply str_eqb_eq in E. congruence.
    + now rewrite <- app_assoc.
Qed.


Lemma query_returns_stripped (msg : str) (w : world T) r w' :
  query msg w = (inr r, w') ->
  exists l1 l2, r = mkResponse (rstrip l1) (rstrip l2).
Proof.
  unfold query, bind, lift, ret.
  destruct (add_question_mark msg) as [e|q]; [discriminate|].
  destruct (write q w) as [[e|n] w1]; [discriminate|].
  destruct (read w1) as [[e|l1] w2]; [discriminate|].
  destruct (read w2) as [[e|l2] w3]; [discriminate|].
  intros [= <- _]. now exists l1, l2.
Qed.
End Runs.

(** ** The typed operations, over any transport *)

Section Operations.
Context `{Runtime} {T : Type} `{Transport T}.

(** X1. Two non-empty messages whose question forms have the same upper
    case are the same query: same bytes written, same calls, same result. *)
Theorem query_same_for_equal_frames (a b : str) (w : world T) :
  a <> [] -> b <> [] ->
  upper (question_form a) = upper (question_form b) ->
  query a w = query b w.
Proof.
  intros Ha Hb E. unfold query, bind, lift.
  rewrite (add_question_mark_nonempty Ha), (add_question_mark_nonempty Hb).
  now rewrite (write_same_upper _ _ w E).
Qed.


(** X3. Both fields of every result of [query] are free of trailing
    whitespace. *)
Theorem query_fields_have_no_trailing_space (msg : str) (w : world T) r w' :
  query msg w = (inr r, w') ->
  no_trailing_space (statement r) /\ no_trailing_space (response r).
Proof.
  intros Hq. destruct (query_returns_stripped _ _ Hq) as [l1 [l2 ->]].
  split; apply rstrip_no_trailing_space.
Qed.

(** X4. When the transport rejects the write, [query] and [command] raise
    the transport's exception after that single call: no read is made. *)
Theorem write_failure_skips_the_reads (msg cmd : str) (args : list pyarg)
    (w : world T) qbody cbody e1 t1 e2 t2 :
  msg <> [] ->
  utf8_encode (upper (question_form msg)) = Some qbody ->
  com_write (qbody ++ crlf) (com w) = (inl e1, t1) ->
  utf8_encode (upper (command_message cmd args)) = Some cbody ->
  com_write (cbody ++ crlf) (com w) = (inl e2, t2) ->
  query msg w =
    (inl e1, {| com := t1; calls := calls w ++ [CallWrite (qbody ++ crlf)] |})
  /\ command cmd args w =
       (inl e2,
        {| com := t2; calls := calls w ++ [CallWrite (cbody ++ crlf)] |}).
Proof.
  intros Hne Hq Hw1 Hc Hw2. split.
  - unfold query, bind, lift. rewrite (add_question_mark_nonempty Hne).
    now rewrite (write_raises _ _ Hq Hw1).
  - unfold command, bind. now rewrite (write_raises _ _ Hc Hw2).
Qed.

(** X5. When the echo line cannot be decoded, [query] raises
    [UnicodeDecodeError] after one write and one read: the response line is
    left unread in the transport. *)
Theorem query_stops_at_undecodable_echo (msg : str) (w : world T)
    body t1 b1 t2 :
  msg <> [] ->
  utf8_encode (upper (question_form msg)) = Some body ->
  accepts (com w) body t1 ->
  com_read_until crlf t1 = (inr b1, t2) ->
  utf8_decode b1 = None ->
  query msg w =
    (inl UnicodeDecodeError,
     {| com := t2;
        calls := calls w ++ [CallWrite (body ++ crlf); CallReadUntil crlf] |}).
Proof.
  intros Hne He Ha Hr Hd. destruct (write_accepted _ _ He Ha) as [n Hw].
  unfold query, bind, lift. rewrite (add_question_mark_nonempty Hne), Hw.
  unfold read, bind, lift, invoke, encode, decode.
  rewrite utf8_encode_term_chars. simpl. rewrite Hr, Hd.
  now rewrite <- app_assoc.
Qed.

(** X6. [position] makes the query [WAVE?] and returns [float] of the
    stripped response line, or raises [ValueError] when [float] rejects it;
    in both cases the write and the two reads have been made. *)
Theorem position_parses_stripped_response (w : world T) t1 l1 t2 l2 t3 :
  accepts (com w) (ascii_bytes "WAVE?") t1 ->
  delivers t1 l1 t2 ->
  delivers t2 l2 t3 ->
  position w =
    (or_raise ValueError (py_float (rstrip l2)),
     {| com := t3;
        calls := calls w ++ [CallWrite (ascii_bytes "WAVE?" ++ crlf);
                             CallReadUntil crlf; CallReadUntil crlf] |}).
Proof.
  intros Ha H1' H2'. unfold position, bind, lift.
  erewrite query_run; try eassumption; [reflexivity|discriminate|reflexivity].
Qed.

(** X7. [outport] makes the query [OUTPORT?] and returns [int] of the
    stripped response line, or raises [ValueError] when [int] rejects it,
    after the write and the two reads. *)
Theorem outport_parses_stripped_response (w : world T) t1 l1 t2 l2 t3 :
  accepts (com w) (ascii_bytes "OUTPORT?") t1 ->
  delivers t1 l1 t2 ->
  delivers t2 l2 t3 ->
  outport w =
    (or_raise ValueError (py_int (rstrip l2)),
     {| com := t3;
        calls := calls w ++ [CallWrite (ascii_bytes "OUTPORT?" ++ crlf);
                             CallReadUntil crlf; CallReadUntil crlf] |}).
Proof.
  intros Ha H1' H2'. unfold outport, bind, lift.
  erewrite query_run; try eassumption; [reflexivity|discriminate|reflexivity].
Qed.

(** X8. [goto x] writes [GOWAVE] with the formatted wavelength, reads one
    line, then makes the query [WAVE?]; its result is [float] of the
    position read back, whatever [x] was. *)
Theorem goto_returns_position_read_back (x : pynum) (w : world T)
    fb t1 l1 t2 t3 l2 t4 l3 t5 :
  utf8_encode (upper (format_3f x)) = Some fb ->
  accepts (com w) (ascii_bytes "GOWAVE " ++ fb) t1 ->
  delivers t1 l1 t2 ->
  accepts t2 (ascii_bytes "WAVE?") t3 ->
  delivers t3 l2 t4 ->
  delivers t4 l3 t5 ->
  goto x w =
    (or_raise ValueError (py_float (rstrip l3)),
     {| com := t5;
        calls := calls w ++ [CallWrite ((ascii_bytes "GOWAVE " ++ fb) ++ crlf);
                             CallReadUntil crlf;
                             CallWrite (ascii_bytes "WAVE?" ++ crlf);
                             CallReadUntil crlf; CallReadUntil crlf] |}).
Proof.
  intros He Ha1 Hd1 Ha2 Hd2 Hd3. unfold goto, position, bind, lift.
  erewrite command_run; try eassumption.
  - erewrite query_run; try eassumption;
      [simpl; now rewrite <- app_assoc|discriminate|reflexivity].
  - change (command_message (lit "gowave") [ArgStr (format_3f x)])
      with (lit "gowave " ++ format_3f x).
    now apply frame_app.
Qed.

(** X9. [shutter close] writes [SHUTTER C] when [close] is true and
    [SHUTTER O] otherwise, reads one line and returns nothing: the
    acknowledgement is not looked at. *)
Theorem shutter_sends_C_or_O (close : bool) (w : world T) t1 l t2 :
  accepts (com w)
    (ascii_bytes (if close then "SHUTTER C" else "SHUTTER O")) t1 ->
  delivers t1 l t2 ->
  shutter close w =
    (inr tt,
     {| com := t2;
        calls := calls w ++
                 [CallWrite (ascii_bytes (if close then "SHUTTER C"
                                          else "SHUTTER O") ++ crlf);
                  CallReadUntil crlf] |}).
Proof.
  intros Ha Hd. unfold shutter, bind, ret.
  erewrite command_run; try eassumption; [reflexivity|].
  now destruct close.
Qed.
(** X21. [set_grating] and [set_outport] send the command name, a blank and
    [str] of their argument, read the one line that comes back and return
    nothing, whatever that line says. *)
Theorem setters_send_name_and_argument (g p : pyarg) (w : world T)
    gb pb t1 l1 t2 u1 k1 u2 :
  utf8_encode (upper (py_str g)) = Some gb ->
  accepts (com w) (ascii_bytes "GRAT " ++ gb) t1 ->
  delivers t1 l1 t2 ->
  utf8_encode (upper (py_str p)) = Some pb ->
  accepts (com w) (ascii_bytes "OUTPORT " ++ pb) u1 ->
  delivers u1 k1 u2 ->
  set_grating g w =
    (inr tt,
     {| com := t2;
        calls := calls w ++ [CallWrite ((ascii_bytes "GRAT " ++ gb) ++ crlf);
                             CallReadUntil crlf] |})
  /\ set_outport p w =
       (inr tt,
        {| com := u2;
           calls := calls w ++
                    [CallWrite ((ascii_bytes "OUTPORT " ++ pb) ++ crlf);
                     CallReadUntil crlf] |}).
Proof.
  intros Hg Ha1 Hd1 Hp Ha2 Hd2. split.
  - unfold set_grating, bind, ret.
    rewrite (@command_run _ _ _ (lit "grat") [ArgStr (py_str g)] w
               (ascii_bytes "GRAT " ++ gb) t1 l1 t2);
      [reflexivity| |exact Ha1|exact Hd1].
    change (command_message (lit "grat") [ArgStr (py_str g)])
      with (lit "grat " ++ py_str g).
    now apply frame_app.
  - unfold set_outport, bind, ret.
    rewrite (@command_run _ _ _ (lit "outport") [ArgStr (py_str p)] w
               (ascii_bytes "OUTPORT " ++ pb) u1 k1 u2);
      [reflexivity| |exact Ha2|exact Hd2].
    change (command_message (lit "outport") [ArgStr (py_str p)])
      with (lit "outport " ++ py_str p).
    now apply frame_app.
Qed.
End Operations.

Section SlitWidth.
Context `{Runtime} {T : Type} `{Transport T}.

Lemma slit_query_frame (slit : pyarg) (sb : bytes) :
  utf8_encode (upper (py_str slit)) = Some sb ->
  utf8_encode
    (upper (question_form (lit "slit" ++ py_str slit ++ lit "microns")))
  = Some (ascii_bytes "SLIT" ++ sb ++ ascii_bytes "MICRONS?").
Proof.
  intros Hs.
  replace (lit "slit" ++ py_str slit ++ lit "microns")
    with ((lit "slit" ++ py_str slit ++ lit "micron") ++ [115])
    by now rewrite <- !app_assoc.
  rewrite question_form_snoc. change (115 =? 63) with false. cbv iota.
  rewrite <- !app_assoc.
  apply frame_app; [reflexivity|]. now apply frame_app.
Qed.

Lemma slit_command_frame (slit width : pyarg) (sb wb : bytes) :
  utf8_encode (upper (py_str slit)) = Some sb ->
  utf8_encode (upper (py_str width)) = Some wb ->
  utf8_encode
    (upper (command_message (lit "slit" ++ py_str slit ++ lit "microns")
              [ArgStr (py_str width)]))
  = Some (ascii_bytes "SLIT" ++ sb ++ ascii_bytes "MICRONS " ++ wb).
Proof.
  intros Hs Hw. unfold command_message. cbn [List.map py_str join].
  rewrite <- !app_assoc.
  apply frame_app; [reflexivity|]. apply frame_app; [exact Hs|].
  change (lit "microns" ++ lit " " ++ py_str width)
    with (lit "microns " ++ py_str width).
  now apply frame_app.
Qed.

(** X10. [slit_width(slit)] without a width only queries: one write of
    [SLIT<slit>MICRONS?] and two reads; the result is [int] of the stripped
    response, or [ValueError]. *)
Theorem slit_width_get_only_queries (slit : pyarg) (w : world T)
    sb t1 l1 t2 l2 t3 :
  utf8_encode (upper (py_str slit)) = Some sb ->
  accepts (com w) (ascii_bytes "SLIT" ++ sb ++ ascii_bytes "MICRONS?") t1 ->
  delivers t1 l1 t2 ->
  delivers t2 l2 t3 ->
  slit_width slit None w =
    (or_raise ValueError (py_int (rstrip l2)),
     {| com := t3;
        calls := calls w ++
                 [CallWrite ((ascii_bytes "SLIT" ++ sb ++
                              ascii_bytes "MICRONS?") ++ crlf);
                  CallReadUntil crlf; CallReadUntil crlf] |}).
Proof.
  intros Hs Ha Hd1 Hd2. unfold slit_width.
  unfold bind at 1. unfold ret at 1. unfold bind, lift.
  erewrite query_run; try eassumption;
    [reflexivity|discriminate|now apply slit_query_frame].
Qed.

(** X11. [slit_width(slit, width)] with a width first sends the command
    [SLIT<slit>MICRONS <width>] and reads its one line, then makes the same
    query as without a width; the result comes from the query. *)
Theorem slit_width_set_commands_then_queries (slit width : pyarg)
    (w : world T) sb wb t1 l0 t2 t3 l1 t4 l2 t5 :
  utf8_encode (upper (py_str slit)) = Some sb ->
  utf8_encode (upper (py_str width)) = Some wb ->
  accepts (com w)
    (ascii_bytes "SLIT" ++ sb ++ ascii_bytes "MICRONS " ++ wb) t1 ->
  delivers t1 l0 t2 ->
  accepts t2 (ascii_bytes "SLIT" ++ sb ++ ascii_bytes "MICRONS?") t3 ->
  delivers t3 l1 t4 ->
  delivers t4 l2 t5 ->
  slit_width slit (Some width) w =
    (or_raise ValueError (py_int (rstrip l2)),
     {| com := t5;
        calls := calls w ++
                 [CallWrite ((ascii_bytes "SLIT" ++ sb ++
                              ascii_bytes "MICRONS " ++ wb) ++ crlf);
                  CallReadUntil crlf;
                  CallWrite ((ascii_bytes "SLIT" ++ sb ++
                              ascii_bytes "MICRONS?") ++ crlf);
                  CallReadUntil crlf; CallReadUntil crlf] |}).
Proof.
  intros Hs Hw Ha1 Hd0 Ha2 Hd1 Hd2. unfold slit_width, bind, lift, ret.
  erewrite command_run; try eassumption; [|now apply slit_command_frame].
  erewrite query_run; try eassumption;
    [simpl; now rewrite <- app_assoc|discriminate|now apply slit_query_frame].
Qed.
End SlitWidth.

(** ** More on the pyserial port *)

Lemma unterminated_prefix (a b : bytes) :
  unterminated (a ++ b) -> unterminated a.
Proof.
  unfold unterminated. intros Hab p q E. apply (Hab p (q ++ b)).
  now rewrite E, <- !app_assoc.
Qed.

Lemma bytes_eqb_refl (a : bytes) : bytes_eqb a a = true.
Proof.
  unfold bytes_eqb. destruct (list_eq_dec byte_eq_dec a a); congruence.
Qed.

Lemma tail_slice_two (l : bytes) (a b : byte) :
  tail_slice 2 (l ++ [a; b]) = [a; b].
Proof.
  unfold tail_slice. rewrite length_app. simpl List.length.
  replace (List.length l + 2 - 2)%nat with (List.length l) by lia.
  now rewrite skipn_app, skipn_all, Nat.sub_diag.
Qed.

Lemma not_yet_terminated (acc : bytes) (b : byte) :
  unterminated (acc ++ [b]) ->
  bytes_eqb (tail_slice (List.length crlf) (acc ++ [b])) crlf = false.
Proof.
  intros Hu. apply bytes_eqb_false. intros E.
  destruct (tail_slice_is_suffix (List.length crlf) (acc ++ [b])) as [p Hp].
  rewrite E in Hp. apply (Hu p []). now rewrite app_nil_r.
Qed.

Lemma read_until_loop_byte (expected acc : bytes) (b : byte)
    (rest : list rx_event) :
  read_until_loop expected acc (RxByte b :: rest) =
    if bytes_eqb (tail_slice (List.length expected) (acc ++ [b])) expected
    then (inr (acc ++ [b]), rest)
    else read_until_loop expected (acc ++ [b]) rest.
Proof. reflexivity. Qed.

Lemma read_until_loop_takes_line (acc line : bytes) (rest : list rx_event) :
  unterminated (acc ++ line ++ [x0d]) ->
  read_until_loop crlf acc (List.map RxByte (line ++ crlf) ++ rest)
  = (inr (acc ++ line ++ crlf), rest).
Proof.
  revert acc. induction line as [|b line IH]; intros acc Hu.
  - change (List.map RxByte ([] ++ crlf) ++ rest)
      with (RxByte x0d :: RxByte x0a :: rest).
    rewrite read_until_loop_byte, not_yet_terminated by exact Hu.
    rewrite read_until_loop_byte, <- app_assoc.
    change ([x0d] ++ [x0a]) with [x0d; x0a].
    change (List.length crlf) with 2%nat. rewrite tail_slice_two.
    change [x0d; x0a] with crlf. now rewrite bytes_eqb_refl.
  - change (List.map RxByte ((b :: line) ++ crlf) ++ rest)
      with (RxByte b :: (List.map RxByte (line ++ crlf) ++ rest)).
    rewrite read_until_loop_byte, not_yet_terminated.
    + rewrite IH; rewrite <- app_assoc; [reflexivity|exact Hu].
    + apply unterminated_prefix with (b := line ++ [x0d]).
      now rewrite <- app_assoc.
Qed.

Lemma utf8_decode_ascii (bs : bytes) :
  forallb (fun b => Byte.to_N b <? 0x80) bs = true ->
  utf8_decode bs = Some (List.map Byte.to_N bs).
Proof.
  induction bs as [|b bs IH]; [reflexivity|].
  intros Hb. simpl in Hb. apply andb_true_iff in Hb. destruct Hb as [Hb Hbs].
  rewrite utf8_decode_cons. cbv zeta. rewrite Hb, (IH Hbs). reflexivity.
Qed.

Lemma read_until_loop_tame (expected acc : bytes) (input : list rx_event) :
  forallb tame input = true ->
  forallb (fun b => Byte.to_N b <? 0x80) acc = true ->
  exists out rest,
    read_until_loop expected acc input = (inr out, rest)
    /\ forallb (fun b => Byte.to_N b <? 0x80) out = true
    /\ forallb tame rest = true.
Proof.
  revert acc. induction input as [|ev input IH]; intros acc Hin Hacc.
  - exists acc, []. now simpl.
  - simpl in Hin. apply andb_true_iff in Hin. destruct Hin as [Hev Hin].
    destruct ev as [b| |]; simpl in *.
    + assert (Hacc' : forallb (fun b => Byte.to_N b <? 0x80) (acc ++ [b])
                      = true).
      { rewrite forallb_app, Hacc. simpl. now rewrite Hev. }
      destruct (bytes_eqb _ expected).
      * now exists (acc ++ [b]), input.
      * now apply IH.
    + now exists acc, input.
    + discriminate.
Qed.

Section PortRuns.
Context `{Runtime}.

Lemma open_port_accepts (s : Serial) (body : bytes) :
  is_open s = true ->
  accepts s body (set_tx (tx s ++ body ++ crlf) s).
Proof.
  intros Ho. exists (N.of_nat (List.length (body ++ crlf))).
  simpl. unfold Serial_write. now rewrite Ho.
Qed.

Lemma open_port_delivers_line (s : Serial) (text : str) (tb : bytes)
    (rest : list rx_event) :
  is_open s = true ->
  utf8_encode text = Some tb ->
  unterminated (tb ++ [x0d]) ->
  rx s = List.map RxByte (tb ++ crlf) ++ rest ->
  delivers s (text ++ term_chars) (set_rx rest s).
Proof.
  intros Ho He Hu Hrx. exists (tb ++ crlf). split.
  - simpl. unfold Serial_read_until.
    rewrite Ho, Hrx, (@read_until_loop_takes_line [] tb rest Hu). reflexivity.
  - apply utf8_round_trip.
    now rewrite utf8_encode_app, He, utf8_encode_term_chars.
Qed.

Lemma open_port_delivers_nothing (s : Serial) (rest : list rx_event) :
  is_open s = true ->
  rx s = RxTimeout :: rest ->
  delivers s [] (set_rx rest s).
Proof.
  intros Ho Hrx. exists []. split; [|reflexivity].
  simpl. unfold Serial_read_until. now rewrite Ho, Hrx.
Qed.

Lemma rstrip_line (text : str) : rstrip (text ++ term_chars) = rstrip text.
Proof. now apply rstrip_app_space. Qed.

(** X13. On an open port, [write] always succeeds for an encodable string:
    it appends the frame to what has been sent, leaves the incoming bytes
    untouched, and returns the length of the frame, two more than the
    encoded text. *)
Theorem write_on_open_port (s : str) (w : world Serial) (body : bytes) :
  is_open (com w) = true ->
  utf8_encode (upper s) = Some body ->
  write s w =
    (inr (N.of_nat (List.length body + 2)),
     {| com := set_tx (tx (com w) ++ body ++ crlf) (com w);
        calls := calls w ++ [CallWrite (body ++ crlf)] |}).
Proof.
  intros Ho He. erewrite write_ok; try eassumption; [reflexivity|].
  simpl. unfold Serial_write. rewrite Ho, length_app. reflexivity.
Qed.

(** X14. On an open port, [read] takes exactly one terminated line: the
    bytes up to and including the first CR LF are decoded and returned with
    their terminator, and everything behind them stays in the port. *)
Theorem read_takes_one_terminated_line (s : Serial) (cs : list call)
    (line : bytes) (rest : list rx_event) :
  is_open s = true ->
  rx s = List.map RxByte (line ++ crlf) ++ rest ->
  unterminated (line ++ [x0d]) ->
  read {| com := s; calls := cs |} =
    (decode (line ++ crlf),
     {| com := set_rx rest s; calls := cs ++ [CallReadUntil crlf] |}).
Proof.
  intros Ho Hrx Hu. unfold read, bind, lift, invoke, encode.
  rewrite utf8_encode_term_chars. simpl. unfold Serial_read_until.
  rewrite Ho, Hrx, (@read_until_loop_takes_line [] line rest Hu).
  reflexivity.
Qed.

(** X15. End to end on an open port: when the device sends the echo and the
    value, each followed by CR LF, [query] puts its frame on the wire,
    consumes exactly those two lines and returns the two texts stripped of
    trailing whitespace. *)
Theorem query_on_answering_device (msg echo val : str) (s : Serial)
    (cs : list call) (body eb vb : bytes) (rest : list rx_event) :
  msg <> [] ->
  utf8_encode (upper (question_form msg)) = Some body ->
  is_open s = true ->
  utf8_encode echo = Some eb ->
  utf8_encode val = Some vb ->
  unterminated (eb ++ [x0d]) ->
  unterminated (vb ++ [x0d]) ->
  rx s = List.map RxByte (eb ++ crlf) ++ List.map RxByte (vb ++ crlf) ++ rest ->
  query msg {| com := s; calls := cs |} =
    (inr (mkResponse (rstrip echo) (rstrip val)),
     {| com := set_rx rest (set_tx (tx s ++ body ++ crlf) s);
        calls := cs ++ [CallWrite (body ++ crlf);
                        CallReadUntil crlf; CallReadUntil crlf] |}).
Proof.
  intros Hne Hb Ho He Hv Hue Huv Hrx.
  rewrite <- (rstrip_line echo), <- (rstrip_line val).
  apply query_run
    with (t1 := set_tx (tx s ++ body ++ crlf) s)
         (t2 := set_rx (List.map RxByte (vb ++ crlf) ++ rest)
                  (set_tx (tx s ++ body ++ crlf) s)).
  - exact Hne.
  - exact Hb.
  - now apply open_port_accepts.
  - now apply open_port_delivers_line with (tb := eb).
  - change (set_rx rest (set_tx (tx s ++ body ++ crlf) s))
      with (set_rx rest
              (set_rx (List.map RxByte (vb ++ crlf) ++ rest)
                 (set_tx (tx s ++ body ++ crlf) s))).
    now apply open_port_delivers_line with (tb := vb).
Qed.
End PortRuns.

Section PortHazards.
Context `{Runtime}.

Lemma open_port_tame_delivers (s : Serial) :
  is_open s = true ->
  forallb tame (rx s) = true ->
  exists l rest,
    delivers s l (set_rx rest s) /\ forallb tame rest = true.
Proof.
  intros Ho Ht.
  destruct (@read_until_loop_tame crlf [] (rx s) Ht eq_refl)
    as [out [rest [Hl [Hout Hrest]]]].
  exists (List.map Byte.to_N out), rest. split; [|exact Hrest].
  exists out. split; [|now apply utf8_decode_ascii].
  simpl. unfold Serial_read_until. now rewrite Ho, Hl.
Qed.

(** X16. On an open port whose incoming events are ASCII bytes and passed
    deadlines only, [query] never raises for a non-empty encodable message:
    lines cut short or missing come back as shorter or empty strings. *)
Theorem query_never_raises_on_tame_input (msg : str) (w : world Serial)
    (body : bytes) :
  msg <> [] ->
  utf8_encode (upper (question_form msg)) = Some body ->
  is_open (com w) = true ->
  forallb tame (rx (com w)) = true ->
  exists r w',
    query msg w = (inr r, w')
    /\ is_open (com w') = true
    /\ forallb tame (rx (com w')) = true.
Proof.
  intros Hne Hb Ho Ht.
  pose (s1 := set_tx (tx (com w) ++ body ++ crlf) (com w)).
  destruct (@open_port_tame_delivers s1 Ho Ht) as [l1 [r1 [Hd1 Ht1]]].
  destruct (@open_port_tame_delivers (set_rx r1 s1) Ho Ht1)
    as [l2 [r2 [Hd2 Ht2]]].
  eexists. eexists. split; [|split].
  - apply query_run with (t1 := s1) (t2 := set_rx r1 s1); try eassumption.
    now apply open_port_accepts.
  - exact Ho.
  - exact Ht2.
Qed.

(** X17. A device that stays silent reads as an open shutter: when both
    deadlines pass without a byte, [shuttered] returns false and [info]
    returns the empty string; neither raises. *)
Theorem silent_device_reads_as_open_shutter (w : world Serial)
    (rest : list rx_event) :
  is_open (com w) = true ->
  rx (com w) = RxTimeout :: RxTimeout :: rest ->
  fst (shuttered w) = inr false /\ fst (info w) = inr [].
Proof.
  intros Ho Hrx.
  pose (s1 := set_tx (tx (com w) ++ ascii_bytes "SHUTTER?" ++ crlf) (com w)).
  pose (s2 := set_tx (tx (com w) ++ ascii_bytes "INFO?" ++ crlf) (com w)).
  split.
  - unfold shuttered, bind, ret.
    erewrite query_run
      with (t1 := s1) (t2 := set_rx (RxTimeout :: rest) s1)
           (t3 := set_rx rest s1) (l1 := []) (l2 := []).
    + reflexivity.
    + discriminate.
    + reflexivity.
    + now apply open_port_accepts.
    + now apply open_port_delivers_nothing.
    + now apply (@open_port_delivers_nothing _
                   (set_rx (RxTimeout :: rest) s1) rest).
  - unfold info, bind, ret.
    erewrite query_run
      with (t1 := s2) (t2 := set_rx (RxTimeout :: rest) s2)
           (t3 := set_rx rest s2) (l1 := []) (l2 := []).
    + reflexivity.
    + discriminate.
    + reflexivity.
    + now apply open_port_accepts.
    + now apply open_port_delivers_nothing.
    + now apply (@open_port_delivers_nothing _
                   (set_rx (RxTimeout :: rest) s2) rest).
Qed.

(** X18. The port is already open when the constructor returns, so a call
    of [connect] on a freshly made driver raises [SerialException] and
    leaves the port as it is. *)
Theorem connect_after_construction_raises (script : list rx_event)
    (p : str) (t : pynum) :
  exists w,
    init true script p t = inr w
    /\ connect w =
         (inl SerialException,
          {| com := com w; calls := calls w ++ [CallOpen] |}).
Proof. eexists. split; reflexivity. Qed.


(** X20. A late answer puts the next query out of step.  When the value of
    a first query arrives after its deadline, that query returns an empty
    response, and the following query takes the late value for its echo and
    its own echo for its value. *)
Theorem late_answer_is_taken_for_the_next_echo
    (m1 m2 echo1 val1 echo2 : str) (s : Serial) (cs : list call)
    (b1 b2 eb1 vb1 eb2 : bytes) (rest : list rx_event) :
  m1 <> [] -> m2 <> [] ->
  utf8_encode (upper (question_form m1)) = Some b1 ->
  utf8_encode (upper (question_form m2)) = Some b2 ->
  is_open s = true ->
  utf8_encode echo1 = Some eb1 -> unterminated (eb1 ++ [x0d]) ->
  utf8_encode val1 = Some vb1 -> unterminated (vb1 ++ [x0d]) ->
  utf8_encode echo2 = Some eb2 -> unterminated (eb2 ++ [x0d]) ->
  rx s = List.map RxByte (eb1 ++ crlf) ++
         RxTimeout :: List.map RxByte (vb1 ++ crlf) ++
         List.map RxByte (eb2 ++ crlf) ++ rest ->
  fst ((r1 <- query m1 ;; r2 <- query m2 ;; ret (r1, r2))
         {| com := s; calls := cs |})
  = inr (mkResponse (rstrip echo1) [], mkResponse (rstrip val1) (rstrip echo2)).
Proof.
  intros Hn1 Hn2 Hb1 Hb2 Ho He1 Hu1 Hv1 Huv He2 Hu2 Hrx.
  pose (s1 := set_tx (tx s ++ b1 ++ crlf) s).
  pose (in2 := List.map RxByte (vb1 ++ crlf) ++
               List.map RxByte (eb2 ++ crlf) ++ rest).
  pose (s2 := set_tx (tx (set_rx in2 s1) ++ b2 ++ crlf) (set_rx in2 s1)).
  unfold bind at 1.
  erewrite query_run
    with (t1 := s1) (t2 := set_rx (RxTimeout :: in2) s1)
         (t3 := set_rx in2 s1) (l1 := echo1 ++ term_chars) (l2 := []);
    try eassumption.
  - unfold bind at 1.
    erewrite query_run
      with (t1 := s2)
           (t2 := set_rx (List.map RxByte (eb2 ++ crlf) ++ rest) s2)
           (t3 := set_rx rest s2)
           (l1 := val1 ++ term_chars) (l2 := echo2 ++ term_chars);
      try eassumption.
    + unfold ret. simpl fst. now rewrite !rstrip_line.
    + now apply open_port_accepts.
    + now apply open_port_delivers_line with (tb := vb1).
    + now apply (@open_port_delivers_line _
                   (set_rx (List.map RxByte (eb2 ++ crlf) ++ rest) s2)
                   echo2 eb2 rest).
  - now apply open_port_accepts.
  - now apply open_port_delivers_line with (tb := eb1).
  - now apply (@open_port_delivers_nothing _
                 (set_rx (RxTimeout :: in2) s1) in2).
Qed.
End PortHazards.

(** ** The further properties run on examples *)

Section MoreExamples.
Local Open Scope string_scope.

#[local] Existing Instance toy_runtime.

Ltac no_crlf :=
  let p := fresh "p" in
  let q := fresh "q" in
  let E := fresh "E" in
  intros p q E; unfold crlf in E;
  repeat (destruct p as [|? p]; [discriminate E|]; try discriminate E).

Ltac accepted := eexists; reflexivity.

Ltac delivered := eexists; split; reflexivity.

(** [wave] and [Wave?] are the same query. *)
Lemma query_same_for_equal_frames_witness :
  query (lit "wave") (world_with true (sends ["WAVE?"; "599"]))
  = query (lit "Wave?") (world_with true (sends ["WAVE?"; "599"])).
Proof.
  apply (@query_same_for_equal_frames toy_runtime _ _
           (lit "wave") (lit "Wave?")).
  - discriminate.
  - discriminate.
  - reflexivity.
Defined.


(** A value sent with blanks before the terminator. *)
Lemma query_fields_have_no_trailing_space_witness :
  exists r,
    fst (query (lit "wave") (world_with true (sends ["WAVE?  "; "599 "])))
      = inr r
    /\ no_trailing_space (statement r) /\ no_trailing_space (response r).
Proof.
  assert (Hq : exists r w',
             query (lit "wave") (world_with true (sends ["WAVE?  "; "599 "]))
             = (inr r, w'))
    by (eexists; eexists; vm_compute; reflexivity).
  destruct Hq as [r [w' Hq]]. exists r. split; [now rewrite Hq|].
  exact (@query_fields_have_no_trailing_space toy_runtime _ _ (lit "wave")
           (world_with true (sends ["WAVE?  "; "599 "])) r w' Hq).
Defined.

(** A closed port rejects the write of a query and of a command. *)
Lemma write_failure_skips_the_reads_witness :
  calls (snd (query (lit "wave") (world_with false [])))
    = [CallWrite (ascii_bytes "WAVE?" ++ crlf)%list]
  /\ calls (snd (command (lit "abort") [] (world_with false [])))
     = [CallWrite (ascii_bytes "ABORT " ++ crlf)%list].
Proof.
  destruct (@write_failure_skips_the_reads toy_runtime _ _
              (lit "wave") (lit "abort") [] (world_with false [])
              (ascii_bytes "WAVE?") (ascii_bytes "ABORT ")
              PortNotOpenError (port_with false [])
              PortNotOpenError (port_with false []))
    as [Hq Hc].
  - discriminate.
  - reflexivity.
  - reflexivity.
  - reflexivity.
  - reflexivity.
  - rewrite Hq, Hc. split; reflexivity.
Defined.

(** An echo that starts with the byte FF. *)
Lemma query_stops_at_undecodable_echo_witness :
  exists w',
    query (lit "wave")
      (world_with true
         ([RxByte xff; RxByte x0d; RxByte x0a] ++ sends ["599"]))
    = (inl UnicodeDecodeError, w')
    /\ rx (com w') = sends ["599"].
Proof.
  eexists. split.
  - eapply (@query_stops_at_undecodable_echo toy_runtime _ _ (lit "wave")).
    + discriminate.
    + reflexivity.
    + accepted.
    + reflexivity.
    + reflexivity.
  - reflexivity.
Defined.

(** A position and a port number read back. *)
Lemma position_parses_stripped_response_witness :
  fst (position (world_with true (sends ["WAVE?"; "599"]))) = inr 599%Z.
Proof.
  erewrite (@position_parses_stripped_response toy_runtime _ _
              (world_with true (sends ["WAVE?"; "599"]))); cycle 1.
  - accepted.
  - delivered.
  - delivered.
  - reflexivity.
Defined.

Lemma outport_parses_stripped_response_witness :
  fst (outport (world_with true (sends ["OUTPORT?"; "two"]))) = inl ValueError.
Proof.
  erewrite (@outport_parses_stripped_response toy_runtime _ _
              (world_with true (sends ["OUTPORT?"; "two"]))); cycle 1.
  - accepted.
  - delivered.
  - delivered.
  - reflexivity.
Defined.

(** The move is asked for 600, the position read back is 599. *)
Lemma goto_returns_position_read_back_witness :
  fst (goto 600%Z
         (world_with true (sends ["GOWAVE 600.000"; "WAVE?"; "599"])))
  = inr 599%Z.
Proof.
  erewrite (@goto_returns_position_read_back toy_runtime _ _ 600%Z
              (world_with true (sends ["GOWAVE 600.000"; "WAVE?"; "599"])));
    cycle 1.
  - reflexivity.
  - accepted.
  - delivered.
  - accepted.
  - delivered.
  - delivered.
  - reflexivity.
Defined.

(** Closing the shutter, whatever the device answers. *)
Lemma shutter_sends_C_or_O_witness :
  exists w',
    shutter true (world_with true (sends ["?? ERROR"])) = (inr tt, w')
    /\ tx (com w') = (ascii_bytes "SHUTTER C" ++ crlf)%list.
Proof.
  eexists. split.
  - eapply (@shutter_sends_C_or_O toy_runtime _ _ true
              (world_with true (sends ["?? ERROR"]))).
    + accepted.
    + delivered.
  - reflexivity.
Defined.

(** Slit 1: reading the width, and setting it to 50. *)
Lemma slit_width_get_only_queries_witness :
  fst (slit_width (@ArgObj toy_runtime 1%Z) None
         (world_with true (sends ["SLIT1MICRONS?"; "120"])))
  = inr 120%Z.
Proof.
  erewrite (@slit_width_get_only_queries toy_runtime _ _
              (@ArgObj toy_runtime 1%Z)
              (world_with true (sends ["SLIT1MICRONS?"; "120"]))); cycle 1.
  - reflexivity.
  - accepted.
  - delivered.
  - delivered.
  - reflexivity.
Defined.

Lemma slit_width_set_commands_then_queries_witness :
  fst (slit_width (@ArgObj toy_runtime 1%Z) (Some (@ArgObj toy_runtime 50%Z))
         (world_with true
            (sends ["SLIT1MICRONS 50"; "SLIT1MICRONS?"; "50"])))
  = inr 50%Z.
Proof.
  erewrite (@slit_width_set_commands_then_queries toy_runtime _ _
              (@ArgObj toy_runtime 1%Z) (@ArgObj toy_runtime 50%Z)
              (world_with true
                 (sends ["SLIT1MICRONS 50"; "SLIT1MICRONS?"; "50"]))); cycle 1.
  - reflexivity.
  - reflexivity.
  - accepted.
  - delivered.
  - accepted.
  - delivered.
  - delivered.
  - reflexivity.
Defined.

(** The euro sign and a letter. *)
Lemma decode_undoes_encode_witness :
  decode [xe2; x82; xac; x41] = inr [0x20AC; 0x41]%N.
Proof.
  apply (@decode_undoes_encode [0x20AC; 0x41]%N [xe2; x82; xac; x41]).
  reflexivity.
Defined.

(** The frame of [abort] and its blank has eight bytes. *)
Lemma write_on_open_port_witness :
  fst (write (lit "abort ") (world_with true [])) = inr 8%N.
Proof.
  erewrite (@write_on_open_port toy_runtime (lit "abort ")
              (world_with true [])); cycle 1.
  - reflexivity.
  - reflexivity.
  - reflexivity.
Defined.

(** Two lines waiting: the first is read, the second stays. *)
Lemma read_takes_one_terminated_line_witness :
  exists w',
    read (world_with true (sends ["OK"; "599"]))
    = (inr (lit "OK" ++ term_chars)%list, w')
    /\ rx (com w') = sends ["599"].
Proof.
  eexists. split.
  - apply (@read_takes_one_terminated_line toy_runtime
             (port_with true (sends ["OK"; "599"])) []
             (ascii_bytes "OK") (sends ["599"])).
    + reflexivity.
    + reflexivity.
    + no_crlf.
  - reflexivity.
Defined.

(** A query answered in full, with a further line behind the answer. *)
Lemma query_on_answering_device_witness :
  exists w',
    query (lit "wave") (world_with true (sends ["WAVE?"; "599 "; "X"]))
    = (inr (mkResponse (lit "WAVE?") (lit "599")), w')
    /\ rx (com w') = sends ["X"].
Proof.
  eexists. split.
  - apply (@query_on_answering_device toy_runtime (lit "wave")
             (lit "WAVE?") (lit "599 ")
             (port_with true (sends ["WAVE?"; "599 "; "X"])) []
             (ascii_bytes "WAVE?") (ascii_bytes "WAVE?") (ascii_bytes "599 ")
             (sends ["X"])).
    + discriminate.
    + reflexivity.
    + reflexivity.
    + reflexivity.
    + reflexivity.
    + no_crlf.
    + no_crlf.
    + reflexivity.
  - reflexivity.
Defined.

(** Only the echo arrives. *)
Lemma query_never_raises_on_tame_input_witness :
  exists r w',
    query (lit "wave") (world_with true (sends ["WAVE?"])) = (inr r, w')
    /\ is_open (com w') = true
    /\ forallb tame (rx (com w')) = true.
Proof.
  apply (@query_never_raises_on_tame_input toy_runtime (lit "wave")
           (world_with true (sends ["WAVE?"])) (ascii_bytes "WAVE?")).
  - discriminate.
  - reflexivity.
  - reflexivity.
  - reflexivity.
Defined.

(** Nothing arrives at all. *)
Lemma silent_device_reads_as_open_shutter_witness :
  fst (shuttered (world_with true [RxTimeout; RxTimeout])) = inr false
  /\ fst (info (world_with true [RxTimeout; RxTimeout])) = inr [].
Proof.
  apply (@silent_device_reads_as_open_shutter toy_runtime
           (world_with true [RxTimeout; RxTimeout]) []).
  - reflexivity.
  - reflexivity.
Defined.


(** The position arrives late and is taken for the echo of [outport?]. *)
Lemma late_answer_is_taken_for_the_next_echo_witness :
  fst ((r1 <- query (lit "wave") ;; r2 <- query (lit "outport") ;;
        ret (r1, r2))
         (world_with true
            (sends ["WAVE?"] ++ RxTimeout :: sends ["599"; "OUTPORT?"])%list))
  = inr (mkResponse (lit "WAVE?") [], mkResponse (lit "599") (lit "OUTPORT?")).
Proof.
  apply (@late_answer_is_taken_for_the_next_echo toy_runtime
           (lit "wave") (lit "outport")
           (lit "WAVE?") (lit "599") (lit "OUTPORT?")
           (port_with true
              (sends ["WAVE?"] ++ RxTimeout :: sends ["599"; "OUTPORT?"])%list)
           []
           (ascii_bytes "WAVE?") (ascii_bytes "OUTPORT?")
           (ascii_bytes "WAVE?") (ascii_bytes "599") (ascii_bytes "OUTPORT?")
           []).
  - discriminate.
  - discriminate.
  - reflexivity.
  - reflexivity.
  - reflexivity.
  - reflexivity.
  - no_crlf.
  - reflexivity.
  - no_crlf.
  - reflexivity.
  - no_crlf.
  - reflexivity.
Defined.
(** Grating 2 and output port 1. *)
Lemma setters_send_name_and_argument_witness :
  tx (com (snd (set_grating (@ArgObj toy_runtime 2%Z)
                  (world_with true (sends ["OK"])))))
    = (ascii_bytes "GRAT 2" ++ crlf)%list
  /\ tx (com (snd (set_outport (@ArgObj toy_runtime 1%Z)
                     (world_with true (sends ["OK"])))))
     = (ascii_bytes "OUTPORT 1" ++ crlf)%list.
Proof.
  edestruct (@setters_send_name_and_argument toy_runtime _ _
               (@ArgObj toy_runtime 2%Z) (@ArgObj toy_runtime 1%Z)
               (world_with true (sends ["OK"])))
    as [Hg Hp].
  - reflexivity.
  - accepted.
  - delivered.
  - reflexivity.
  - accepted.
  - delivered.
  - rewrite Hg, Hp. split; reflexivity.
Defined.
End MoreExamples.
